(** * react-hook-storage: the coercion routine and the storage hook

    A shallow embedding of [parseString] and [useStorage] (the module
    imported as hooks/useStorage; its text is lines 71-216 of
    src/providers/StorageProvider.tsx), of [StorageProvider] (lines 60-68
    there), of the context (src/contexts/StorageContext.ts) and of
    [useStorageContext] (src/hooks/useStorageContext.ts), together with
    the ECMAScript primitives they call: [parseFloat], [isNaN], [String],
    [JSON.parse], [Object.is], [typeof], [??] and the [localStorage]
    accessors.

    Conventions.
    - A JavaScript string is the list of its UTF-16 code units, each a [Z].
    - A JavaScript number is an IEEE-754 binary64 datum: NaN, a signed
      infinity, a signed zero, or [(-1)^neg * m * 2^e] with [(m, e)]
      canonical.  Decimal literals are rounded to nearest, ties to even.
    - The values a cell holds are JSON-like data and [undefined].  The
      own properties of an object are data properties that hold such
      values, none of them callable; everything else is inherited from
      [Object.prototype] or [Array.prototype].  The order in which
      integer-like keys of an object are enumerated is not modelled.
    - The callbacks of the hook are functions on the backend and the
      state of the hook; a thrown [Error] is a [Throw] result.
    - [localStorage] is a finite map from strings to strings. *)

From Stdlib Require Import ZArith NArith List Ascii String Lia.
From Stdlib Require Import DecimalN DecimalPos.
From stdpp Require Import gmap.

Open Scope Z_scope.

Set Warnings "-register-all".

(** ** Strings *)

Abbreviation jsstring := (list Z).

(** The code units of an ASCII literal. *)
Definition str (s : string) : jsstring :=
  map (fun a => Z.of_N (N_of_ascii a)) (list_ascii_of_string s).

(** The double quote, U+0022. *)
Definition dquote : jsstring := [34].

Fixpoint starts_with (p s : jsstring) : bool :=
  match p, s with
  | [], _ => true
  | c :: p', d :: s' => (c =? d) && starts_with p' s'
  | _ :: _, [] => false
  end.

(** ** Numbers *)

Inductive number : Type :=
| NaN
| Infinity (neg : bool)
| Zero (neg : bool)
| Finite (neg : bool) (m : Z) (e : Z).

#[global] Instance number_eq_dec : EqDecision number.
Proof. solve_decision. Defined.

(** [(m, e)] is the canonical binary64 encoding of [m * 2^e]: a normal
    number has a 53-bit significand, a subnormal one the least exponent. *)
Definition canonical (m e : Z) : bool :=
  ((2 ^ 52 <=? m) && (m <? 2 ^ 53) && (-1074 <=? e) && (e <=? 971))
  || ((0 <? m) && (m <? 2 ^ 52) && (e =? -1074)).

(** The Number values: every datum but a non-canonical [Finite]. *)
Definition is_Number (x : number) : bool :=
  match x with
  | Finite _ m e => canonical m e
  | _ => true
  end.

Definition isNaN (x : number) : bool :=
  match x with NaN => true | _ => false end.

Definition isFinite (x : number) : bool :=
  match x with Zero _ | Finite _ _ _ => true | _ => false end.

(** IsStrictlyEqual on two Numbers: NaN equals nothing, the zeros are equal. *)
Definition Number_equal (x y : number) : bool :=
  match x, y with
  | NaN, _ | _, NaN => false
  | Zero _, Zero _ => true
  | _, _ => bool_decide (x = y)
  end.

(** The numerator of [2^k] seen as a fraction: [2^k = pow2 k / pow2 (-k)]. *)
Definition pow2 (k : Z) : Z := 2 ^ Z.max 0 k.

(** [floor (log2 (a / b))] for positive [a] and [b]. *)
Definition ilog2_ratio (a b : Z) : Z :=
  let l0 := Z.log2 a - Z.log2 b in
  if b * pow2 l0 <=? a * pow2 (- l0) then l0 else l0 - 1.

(** The binary64 value nearest to [a / b] ([a], [b] positive), ties to even;
    overflow gives an infinity, underflow a zero. *)
Definition round_ratio (neg : bool) (a b : Z) : number :=
  let l := ilog2_ratio a b in
  let e := Z.max (l - 52) (-1074) in
  let num := a * pow2 (- e) in
  let den := b * pow2 e in
  let q := num / den in
  let r := num mod den in
  let m := if (den <? 2 * r) || ((den =? 2 * r) && Z.odd q) then q + 1 else q in
  if m =? 0 then Zero neg
  else if m =? 2 ^ 53
       then (if 971 <? e + 1 then Infinity neg else Finite neg (2 ^ 52) (e + 1))
       else if 971 <? e then Infinity neg else Finite neg m e.

(** The Number value of the decimal [s * 10^ex], [s] a natural number. *)
Definition round_decimal (neg : bool) (s ex : Z) : number :=
  if s =? 0 then Zero neg
  else round_ratio neg (s * 10 ^ Z.max 0 ex) (10 ^ Z.max 0 (- ex)).

(** ** Decimal digits *)

Definition is_digit (c : Z) : bool := (48 <=? c) && (c <=? 57).

(** The longest prefix of decimal digits, and what follows it. *)
Fixpoint span_digits (s : jsstring) : jsstring * jsstring :=
  match s with
  | c :: r =>
      if is_digit c then let (ds, t) := span_digits r in (c :: ds, t)
      else ([], s)
  | [] => ([], [])
  end.

Definition digits_value (ds : jsstring) : Z :=
  fold_left (fun acc c => 10 * acc + (c - 48)) ds 0.

Fixpoint uint_chars (u : Decimal.uint) : jsstring :=
  match u with
  | Decimal.Nil => []
  | Decimal.D0 u => 48 :: uint_chars u
  | Decimal.D1 u => 49 :: uint_chars u
  | Decimal.D2 u => 50 :: uint_chars u
  | Decimal.D3 u => 51 :: uint_chars u
  | Decimal.D4 u => 52 :: uint_chars u
  | Decimal.D5 u => 53 :: uint_chars u
  | Decimal.D6 u => 54 :: uint_chars u
  | Decimal.D7 u => 55 :: uint_chars u
  | Decimal.D8 u => 56 :: uint_chars u
  | Decimal.D9 u => 57 :: uint_chars u
  end.

(** The decimal digits of a natural number, most significant first. *)
Definition digits_of (n : Z) : jsstring := uint_chars (N.to_uint (Z.to_N n)).

(** ** parseFloat *)

(** WhiteSpace and LineTerminator code units (StrWhiteSpaceChar). *)
Definition is_StrWhiteSpaceChar (c : Z) : bool :=
  ((9 <=? c) && (c <=? 13)) || (c =? 32) || (c =? 160) || (c =? 5760)
  || ((8192 <=? c) && (c <=? 8202)) || (c =? 8232) || (c =? 8233)
  || (c =? 8239) || (c =? 8287) || (c =? 12288) || (c =? 65279).

Fixpoint trim_start (s : jsstring) : jsstring :=
  match s with
  | c :: r => if is_StrWhiteSpaceChar c then trim_start r else s
  | [] => []
  end.

(** An optional sign in front of the digits of an exponent. *)
Definition signed_digits (s : jsstring) : bool * jsstring :=
  match s with
  | 43 :: t => (false, t)
  | 45 :: t => (true, t)
  | _ => (false, s)
  end.

(** The value of the ExponentPart that [s] starts with, 0 when [s] starts
    with no complete one: an [e] or [E] without digits is not consumed. *)
Definition exponent_part (s : jsstring) : Z :=
  match s with
  | c :: r =>
      if (c =? 101) || (c =? 69) then
        let (neg, t) := signed_digits r in
        let (ds, _) := span_digits t in
        match ds with
        | [] => 0
        | _ => if neg then - digits_value ds else digits_value ds
        end
      else 0
  | [] => 0
  end.

(** The longest StrUnsignedDecimalLiteral that [s] starts with, as a
    Number; NaN when there is none. *)
Definition StrUnsignedDecimalLiteral (neg : bool) (s : jsstring) : number :=
  if starts_with (str "Infinity") s then Infinity neg
  else
    let (ip, r1) := span_digits s in
    let (fp, r2) := match r1 with
                    | 46 :: t => span_digits t
                    | _ => ([], r1)
                    end in
    match ip ++ fp with
    | [] => NaN
    | ds => round_decimal neg (digits_value ds)
                          (exponent_part r2 - Z.of_nat (length fp))
    end.

Definition parseFloat (input : jsstring) : number :=
  match trim_start input with
  | 43 :: r => StrUnsignedDecimalLiteral false r
  | 45 :: r => StrUnsignedDecimalLiteral true r
  | t => StrUnsignedDecimalLiteral false t
  end.

(** ** Number::toString, radix 10 *)

(** The exact decimal expansion [(s, ex)] of [m * 2^e]: [m * 2^e = s * 10^ex]. *)
Definition exact_decimal (m e : Z) : Z * Z :=
  if 0 <=? e then (m * 2 ^ e, 0) else (m * 5 ^ (- e), e).

(** The two [k]-digit decimals around a [d]-digit decimal [(s, ex)], the
    nearer one first (on a tie, the even one). *)
Definition candidates (s ex d k : Z) : list (Z * Z) :=
  let w := 10 ^ (d - k) in
  let lo := s / w in
  let r := s mod w in
  let down := (lo, ex + (d - k)) in
  let up := if lo + 1 =? 10 ^ k then (10 ^ (k - 1), ex + (d - k) + 1)
            else (lo + 1, ex + (d - k)) in
  if (2 * r <? w) || ((2 * r =? w) && Z.even lo) then [down; up] else [up; down].

(** The first decimal accepted by [ok] among the candidates with [k]
    digits, for the first [k] of [ks] that has one; [last] when none has. *)
Fixpoint first_decimal (ok : Z * Z -> bool) (cands : nat -> list (Z * Z))
    (ks : list nat) (last : Z * Z) : Z * Z :=
  match ks with
  | [] => last
  | k :: ks' =>
      match find ok (cands k) with
      | Some c => c
      | None => first_decimal ok cands ks' last
      end
  end.

(** The decimal with the fewest digits among those that denote [m * 2^e]
    as a Number; the exact expansion is the last one tried. *)
Definition shortest_decimal (m e : Z) : Z * Z :=
  let '(s, ex) := exact_decimal m e in
  let d := length (digits_of s) in
  first_decimal
    (fun c => bool_decide (round_decimal false c.1 c.2 = Finite false m e))
    (fun k => candidates s ex (Z.of_nat d) (Z.of_nat k))
    (seq 1 d) (s, ex).

(** The text of the decimal [s * 10^ex], [s] positive. *)
Definition format_decimal (s ex : Z) : jsstring :=
  let ds := digits_of s in
  let k := Z.of_nat (length ds) in
  let n := ex + k in
  if (k <=? n) && (n <=? 21) then ds ++ replicate (Z.to_nat (n - k)) 48
  else if (0 <? n) && (n <=? 21) then
    take (Z.to_nat n) ds ++ str "." ++ drop (Z.to_nat n) ds
  else if (-6 <? n) && (n <=? 0) then
    str "0." ++ replicate (Z.to_nat (- n)) 48 ++ ds
  else
    let es := (if n - 1 <? 0 then str "-" else str "+")
              ++ digits_of (Z.abs (n - 1)) in
    match ds with
    | [] => []
    | [c] => [c] ++ str "e" ++ es
    | c :: rest => [c] ++ str "." ++ rest ++ str "e" ++ es
    end.

Definition Number_toString (x : number) : jsstring :=
  match x with
  | NaN => str "NaN"
  | Zero _ => str "0"
  | Infinity neg => (if neg then str "-" else []) ++ str "Infinity"
  | Finite neg m e =>
      (if neg then str "-" else [])
      ++ (let '(s, ex) := shortest_decimal m e in format_decimal s ex)
  end.

(** ** Values *)

(** The values a storage cell is given and returns.  An object is the list
    of its own data properties in creation order, an array the list of its
    elements. *)
Inductive value : Type :=
| VUndefined
| VNull
| VBoolean (b : bool)
| VNumber (n : number)
| VString (s : jsstring)
| VObject (props : list (jsstring * value))
| VArray (elems : list value).

Definition typeof (v : value) : jsstring :=
  match v with
  | VUndefined => str "undefined"
  | VNull => str "object"
  | VBoolean _ => str "boolean"
  | VNumber _ => str "number"
  | VString _ => str "string"
  | VObject _ | VArray _ => str "object"
  end.

Definition is_null (v : value) : bool :=
  match v with VNull => true | _ => false end.

(** An object or an array: what the spec calls a non-null composite. *)
Definition is_composite (v : value) : bool :=
  match v with VObject _ | VArray _ => true | _ => false end.

(** ** Results *)

(** A completed call or a thrown [Error] with its message. *)
Inductive result (A : Type) : Type :=
| Return (a : A)
| Throw (message : jsstring).

Arguments Return {A} a.
Arguments Throw {A} message.

#[global] Instance result_eq_dec {A : Type} `{EqDecision A} :
  EqDecision (result A).
Proof. solve_decision. Defined.

(** [f] applied to what a call returned. *)
Definition result_map {A B : Type} (f : A -> B) (r : result A) : result B :=
  match r with
  | Return a => Return (f a)
  | Throw message => Throw message
  end.

(** ** String *)

Definition has_own_property (props : list (jsstring * value)) (key : jsstring)
    : bool :=
  existsb (fun p => bool_decide (p.1 = key)) props.

(** The message of the TypeError of OrdinaryToPrimitive, as V8 words it. *)
Definition not_primitive : jsstring :=
  str "Cannot convert object to primitive value".

(** [String(v)].  For an object, OrdinaryToPrimitive calls [toString] and
    then [valueOf] when they are callable.  An object without an own
    [toString] inherits [Object.prototype.toString] and answers
    ["[object Object]"].  An own [toString] is a data property, not
    callable, and [valueOf], own or inherited, gives no primitive: a
    TypeError is thrown.  An array joins the texts of its elements with
    commas, [undefined] and [null] elements giving the empty text, and
    throws what the conversion of an element throws. *)
Fixpoint String (v : value) : result jsstring :=
  match v with
  | VUndefined => Return (str "undefined")
  | VNull => Return (str "null")
  | VBoolean b => Return (if b then str "true" else str "false")
  | VNumber n => Return (Number_toString n)
  | VString s => Return s
  | VObject props =>
      if has_own_property props (str "toString") then Throw not_primitive
      else Return (str "[object Object]")
  | VArray elems =>
      let element (e : value) : result jsstring :=
        match e with
        | VUndefined | VNull => Return []
        | _ => String e
        end in
      (fix join (es : list value) : result jsstring :=
         match es with
         | [] => Return []
         | [e] => element e
         | e :: rest =>
             match element e with
             | Throw message => Throw message
             | Return s =>
                 match join rest with
                 | Throw message => Throw message
                 | Return t => Return (s ++ str "," ++ t)
                 end
             end
         end) elems
  end.

(** [x ?? d]: [d] when [x] is [null] or [undefined], here [None]. *)
Definition nullish_coalesce {A : Type} (x : option A) (d : A) : A :=
  match x with Some a => a | None => d end.

(** ** JSON.parse *)

Module JSON.

Inductive token : Type :=
| TLBrace | TRBrace | TLBracket | TRBracket | TColon | TComma
| TString (s : jsstring)
| TNumber (n : number)
| TTrue | TFalse | TNull.

(** The states of the scanner.  Accumulated code units are kept in
    reverse. *)
Inductive mode : Type :=
| MDefault
| MLiteral (rest : jsstring) (t : token)
| MNumber (acc : jsstring)
| MString (acc : jsstring)
| MEscape (acc : jsstring)
| MUnicode (acc : jsstring) (hex : list Z).

Definition is_number_char (c : Z) : bool :=
  is_digit c || (c =? 43) || (c =? 45) || (c =? 46) || (c =? 101) || (c =? 69).

(** A JSON number: an optional minus, an integer part without a leading
    zero (or 0 alone), an optional fraction with at least one digit, an
    optional exponent with at least one digit, and nothing more. *)
Definition number_value (s : jsstring) : option number :=
  let (neg, s1) := match s with 45 :: r => (true, r) | _ => (false, s) end in
  let (ip, r1) := span_digits s1 in
  let int_ok := match ip with
                | [] => false
                | [_] => true
                | c :: _ => negb (c =? 48)
                end in
  let '(fp, r2, frac_ok) :=
    match r1 with
    | 46 :: t => let (fp, r2) := span_digits t in
                 (fp, r2, match fp with [] => false | _ => true end)
    | _ => ([], r1, true)
    end in
  let (ex, exp_ok) :=
    match r2 with
    | [] => (0, true)
    | c :: r =>
        if (c =? 101) || (c =? 69) then
          let (eneg, t) := signed_digits r in
          let (ds, rest) := span_digits t in
          (if eneg then - digits_value ds else digits_value ds,
           match ds, rest with _ :: _, [] => true | _, _ => false end)
        else (0, false)
    end in
  if int_ok && frac_ok && exp_ok
  then Some (round_decimal neg (digits_value (ip ++ fp)) (ex - Z.of_nat (length fp)))
  else None.

Definition hex_digit (c : Z) : option Z :=
  if is_digit c then Some (c - 48)
  else if (97 <=? c) && (c <=? 102) then Some (c - 87)
  else if (65 <=? c) && (c <=? 70) then Some (c - 55)
  else None.

(** One code unit read between tokens. *)
Definition step_default (c : Z) : option (list token * mode) :=
  if (c =? 9) || (c =? 10) || (c =? 13) || (c =? 32) then Some ([], MDefault)
  else if c =? 123 then Some ([TLBrace], MDefault)
  else if c =? 125 then Some ([TRBrace], MDefault)
  else if c =? 91 then Some ([TLBracket], MDefault)
  else if c =? 93 then Some ([TRBracket], MDefault)
  else if c =? 58 then Some ([TColon], MDefault)
  else if c =? 44 then Some ([TComma], MDefault)
  else if c =? 34 then Some ([], MString [])
  else if c =? 116 then Some ([], MLiteral (str "rue") TTrue)
  else if c =? 102 then Some ([], MLiteral (str "alse") TFalse)
  else if c =? 110 then Some ([], MLiteral (str "ull") TNull)
  else if is_digit c || (c =? 45) then Some ([], MNumber [c])
  else None.

Definition step (m : mode) (c : Z) : option (list token * mode) :=
  match m with
  | MDefault => step_default c
  | MLiteral [] _ => None
  | MLiteral (x :: rest) t =>
      if c =? x
      then Some (match rest with
                 | [] => ([t], MDefault)
                 | _ => ([], MLiteral rest t)
                 end)
      else None
  | MNumber acc =>
      if is_number_char c then Some ([], MNumber (c :: acc))
      else
        match number_value (rev acc), step_default c with
        | Some n, Some (toks, m') => Some (TNumber n :: toks, m')
        | _, _ => None
        end
  | MString acc =>
      if c =? 34 then Some ([TString (rev acc)], MDefault)
      else if c =? 92 then Some ([], MEscape acc)
      else if c <? 32 then None
      else Some ([], MString (c :: acc))
  | MEscape acc =>
      if (c =? 34) || (c =? 92) || (c =? 47) then Some ([], MString (c :: acc))
      else if c =? 98 then Some ([], MString (8 :: acc))
      else if c =? 102 then Some ([], MString (12 :: acc))
      else if c =? 110 then Some ([], MString (10 :: acc))
      else if c =? 114 then Some ([], MString (13 :: acc))
      else if c =? 116 then Some ([], MString (9 :: acc))
      else if c =? 117 then Some ([], MUnicode acc [])
      else None
  | MUnicode acc hex =>
      match hex_digit c with
      | None => None
      | Some h =>
          match hex with
          | [h1; h2; h3] =>
              Some ([], MString (((h1 * 16 + h2) * 16 + h3) * 16 + h :: acc))
          | _ => Some ([], MUnicode acc (hex ++ [h]))
          end
      end
  end.

(** The tokens of a text, [None] when it has a lexical error. *)
Fixpoint scan (m : mode) (s : jsstring) : option (list token) :=
  match s with
  | [] =>
      match m with
      | MDefault => Some []
      | MNumber acc => option_map (fun n => [TNumber n]) (number_value (rev acc))
      | _ => None
      end
  | c :: r =>
      match step m c with
      | None => None
      | Some (toks, m') => option_map (app toks) (scan m' r)
      end
  end.

(** A container under construction. *)
Inductive frame : Type :=
| FArray (elems : list value)
| FObject (props : list (jsstring * value)) (key : option jsstring).

(** What the parser expects next. *)
Inductive expect : Type :=
| EValue
| EValueOrClose
| EKey (first : bool)
| EColon
| ECommaOrClose
| EEnd (v : value).

(** CreateDataProperty: a repeated key keeps its place and takes the new
    value. *)
Fixpoint set_property (props : list (jsstring * value)) (k : jsstring)
    (v : value) : list (jsstring * value) :=
  match props with
  | [] => [(k, v)]
  | (k', v') :: rest =>
      if bool_decide (k' = k) then (k, v) :: rest
      else (k', v') :: set_property rest k v
  end.

(** A finished value goes into the innermost open container. *)
Definition push_value (v : value) (stack : list frame)
    : option (list frame * expect) :=
  match stack with
  | [] => Some ([], EEnd v)
  | FArray es :: fs => Some (FArray (es ++ [v]) :: fs, ECommaOrClose)
  | FObject ps (Some k) :: fs =>
      Some (FObject (set_property ps k v) None :: fs, ECommaOrClose)
  | FObject _ None :: _ => None
  end.

Definition scalar (t : token) : option value :=
  match t with
  | TString s => Some (VString s)
  | TNumber n => Some (VNumber n)
  | TTrue => Some (VBoolean true)
  | TFalse => Some (VBoolean false)
  | TNull => Some VNull
  | _ => None
  end.

Definition start_value (t : token) (stack : list frame)
    : option (list frame * expect) :=
  match t with
  | TLBracket => Some (FArray [] :: stack, EValueOrClose)
  | TLBrace => Some (FObject [] None :: stack, EKey true)
  | _ => match scalar t with
         | Some v => push_value v stack
         | None => None
         end
  end.

Definition close_array (stack : list frame) : option (list frame * expect) :=
  match stack with
  | FArray es :: fs => push_value (VArray es) fs
  | _ => None
  end.

Definition close_object (stack : list frame) : option (list frame * expect) :=
  match stack with
  | FObject ps None :: fs => push_value (VObject ps) fs
  | _ => None
  end.

Definition accept (t : token) (stack : list frame) (e : expect)
    : option (list frame * expect) :=
  match e with
  | EValue => start_value t stack
  | EValueOrClose =>
      match t with
      | TRBracket => close_array stack
      | _ => start_value t stack
      end
  | EKey first =>
      match t, stack with
      | TString k, FObject ps None :: fs => Some (FObject ps (Some k) :: fs, EColon)
      | TRBrace, _ => if first then close_object stack else None
      | _, _ => None
      end
  | EColon => match t with TColon => Some (stack, EValue) | _ => None end
  | ECommaOrClose =>
      match t, stack with
      | TComma, FArray _ :: _ => Some (stack, EValue)
      | TComma, FObject _ _ :: _ => Some (stack, EKey false)
      | TRBracket, _ => close_array stack
      | TRBrace, _ => close_object stack
      | _, _ => None
      end
  | EEnd _ => None
  end.

Fixpoint run (toks : list token) (stack : list frame) (e : expect)
    : option value :=
  match toks with
  | [] => match stack, e with [], EEnd v => Some v | _, _ => None end
  | t :: ts =>
      match accept t stack e with
      | Some (stack', e') => run ts stack' e'
      | None => None
      end
  end.

(** [JSON.parse(text)] without a reviver; [None] is a SyntaxError. *)
Definition parse (text : jsstring) : option value :=
  match scan MDefault text with
  | Some toks => run toks [] EValue
  | None => None
  end.

End JSON.

(** ** parseString *)

(** The [try] block of [parseString] (lines 85-93): [Some] when it
    returns the parsed object, [None] when it completes without returning
    or [JSON.parse] throws and the empty [catch] swallows the error. *)
Definition parseString_try (input : jsstring) : option value :=
  match JSON.parse input with
  | Some parsedObject =>
      if bool_decide (typeof parsedObject = str "object")
         && negb (is_null parsedObject)
      then Some parsedObject
      else None
  | None => None
  end.

(** [parseString], lines 84-108. *)
Definition parseString (input : jsstring) : value :=
  match parseString_try input with
  | Some parsedObject => parsedObject
  | None =>
      let parsedNumber := parseFloat input in
      if negb (isNaN parsedNumber) then VNumber parsedNumber
      else if bool_decide (input = str "true") || bool_decide (input = str "false")
           then VBoolean (bool_decide (input = str "true"))
           else VString input
  end.

(** ** localStorage *)

Module localStorage.

(** [getItem] answers [null], here [None], for a key that was never set. *)
Definition getItem (key : jsstring) (ls : gmap (list Z) (list Z))
    : option jsstring :=
  ls !! key.

Definition setItem (key val : jsstring) (ls : gmap (list Z) (list Z))
    : gmap (list Z) (list Z) :=
  <[key := val]> ls.

End localStorage.

(** ** useStorage *)

(** [defaultValue] is [None] when the property is left out. *)
Record UseStorageConfig : Type := {
  name : jsstring;
  defaultValue : option value
}.

(** What [useMemo] keeps between renders: the dependency array
    [[raw, name]] and the value computed for it. *)
Record memo : Type := {
  memo_raw : option jsstring;
  memo_name : jsstring;
  memo_value : value
}.

(** The storage backend together with one mounted hook: its [raw] state,
    [None] for the initial [undefined], and its memoised getter. *)
Record state : Type := {
  storage : gmap (list Z) (list Z);
  raw : option jsstring;
  cache : option memo
}.

(** ToBoolean of a string or [null], the test of [if (currVal)]. *)
Definition truthy (x : option jsstring) : bool :=
  match x with
  | Some (_ :: _) => true
  | _ => false
  end.

(** [Object.is] of a string or [undefined] and a string. *)
Definition Object_is (x : option jsstring) (y : jsstring) : bool :=
  match x with
  | Some s => bool_decide (s = y)
  | None => false
  end.

Definition inconsistency : jsstring :=
  str "State inconsistencies between RAM and localStorage. Consider using `useStorageContext` for states shared by multiple components.".

(** The callback of [useEffect], lines 182-191.  When [String] throws,
    nothing is written and [raw] is not set. *)
Definition initialize (config : UseStorageConfig) (st : state) : result state :=
  let defaultValue := default VUndefined (defaultValue config) in
  let currVal := localStorage.getItem (name config) (storage st) in
  if truthy currVal then
    Return {| storage := storage st; raw := currVal; cache := cache st |}
  else
    match String defaultValue with
    | Throw message => Throw message
    | Return text =>
        let rawDefault := nullish_coalesce (Some text) (str "") in
        Return
          {| storage := localStorage.setItem (name config) rawDefault (storage st);
             raw := Some rawDefault;
             cache := cache st |}
    end.

(** The callback of [useMemo], lines 194-205. *)
Definition getter (config : UseStorageConfig) (st : state) : result value :=
  let rawLS := nullish_coalesce (localStorage.getItem (name config) (storage st))
                                (str "") in
  if negb (Object_is (raw st) rawLS) then Throw inconsistency
  else
    let processedLS := parseString rawLS in
    Return processedLS.

(** [setter], lines 207-211.  When [String] throws, nothing is written
    and [raw] is not set. *)
Definition setter (config : UseStorageConfig) (v : value) (st : state)
    : result state :=
  match String v with
  | Throw message => Throw message
  | Return rawValue =>
      Return
        {| storage := localStorage.setItem (name config) rawValue (storage st);
           raw := Some rawValue;
           cache := cache st |}
  end.

(** [useMemo(callback, [raw, name])]: the callback runs on the first
    render and whenever a dependency is not [Object.is] its previous
    value; otherwise the kept value is returned. *)
Definition useMemo (config : UseStorageConfig) (st : state)
    : result (value * state) :=
  let recompute :=
    match getter config st with
    | Return v =>
        Return (v, {| storage := storage st; raw := raw st;
                      cache := Some {| memo_raw := raw st;
                                       memo_name := name config;
                                       memo_value := v |} |})
    | Throw message => Throw message
    end in
  match cache st with
  | Some c =>
      if bool_decide (memo_raw c = raw st)
         && bool_decide (memo_name c = name config)
      then Return (memo_value c, st)
      else recompute
  | None => recompute
  end.

(** The state of a hook that has not rendered yet. *)
Definition mount (ls : gmap (list Z) (list Z)) : state :=
  {| storage := ls; raw := None; cache := None |}.

(** ** The storage context *)

(** An element of the tuple a context carries. *)
Inductive entry : Type :=
| Getter (v : value)
| Setter (set : value -> state -> result state).

(** [createContext([])]: the default is the empty tuple. *)
Definition StorageContext : list entry := [].

(** [useContext]: the value of the nearest enclosing provider, the
    default of the context when there is none.  [providers] lists the
    values of the enclosing providers, nearest first. *)
Definition useContext (default : list entry) (providers : list (list entry))
    : list entry :=
  match providers with
  | v :: _ => v
  | [] => default
  end.

(** What [StorageProvider] provides to its children. *)
Definition StorageProvider (getter : value)
    (setter : value -> state -> result state)
    (providers : list (list entry)) : list (list entry) :=
  [Getter getter; Setter setter] :: providers.

Definition useStorageContext (providers : list (list entry)) : list entry :=
  let dispatch := useContext StorageContext providers in
  dispatch.

(** ** Auxiliary notions for the statements *)

(** The text after a run of digits does not go on with a digit. *)
Definition ends_digits (rest : jsstring) : Prop :=
  match rest with
  | c :: _ => is_digit c = false
  | [] => True
  end.

(** The numeric, boolean and identity stages of [parseString] on their
    own, in the order of the source. *)
Definition later_stages (input : jsstring) : value :=
  if negb (isNaN (parseFloat input)) then VNumber (parseFloat input)
  else if bool_decide (input = str "true") then VBoolean true
  else if bool_decide (input = str "false") then VBoolean false
  else VString input.

(** What [useMemo] keeps is the coercion of the [raw] it was computed
    for. *)
Definition cache_coherent (st : state) : Prop :=
  match cache st with
  | Some c => exists r, memo_raw c = Some r /\ memo_value c = parseString r
  | None => True
  end.

(** Binary64 data used in the statements. *)
Definition one : number := Finite false (2 ^ 52) (-52).
Definition three : number := Finite false (3 * 2 ^ 51) (-51).
Definition five : number := Finite false (5 * 2 ^ 50) (-50).

(** Replace the literals of the goal by their code units. *)
Ltac eval_str :=
  repeat match goal with
         | |- context [str ?s] =>
             let x := eval vm_compute in (str s) in change (str s) with x
         end.

(** A value with the sign of a zero forgotten; [===] does not see it. *)
Definition unsigned_zero (v : value) : value :=
  match v with
  | VNumber (Zero _) => VNumber (Zero false)
  | _ => v
  end.

(** The scanner is inside a string, a number or a literal: the token it
    emits next stands for a scalar. *)
Definition scanning_scalar (m : JSON.mode) : Prop :=
  match m with
  | JSON.MDefault => False
  | JSON.MLiteral _ t => is_Some (JSON.scalar t)
  | _ => True
  end.

(** The cached text is the persisted one: what the getter checks. *)
Definition in_sync (config : UseStorageConfig) (st : state) : Prop :=
  exists r, raw st = Some r /\ storage st !! name config = Some r.

(** The text the effect leaves under the key, when it leaves one. *)
Definition initial_text (config : UseStorageConfig) (st : state)
    : result jsstring :=
  match storage st !! name config with
  | Some (c :: p) => Return (c :: p)
  | _ => String (default VUndefined (defaultValue config))
  end.

(** The value [useMemo] kept, when it was computed for the [raw] and the
    [name] of this render. *)
Definition kept_value (config : UseStorageConfig) (st : state) : option value :=
  match cache st with
  | Some c =>
      if bool_decide (memo_raw c = raw st)
         && bool_decide (memo_name c = name config)
      then Some (memo_value c)
      else None
  | None => None
  end.

(** The state after [useMemo] has computed [v] for this render. *)
Definition remember (config : UseStorageConfig) (v : value) (st : state) : state :=
  {| storage := storage st; raw := raw st;
     cache := Some {| memo_raw := raw st; memo_name := name config;
                      memo_value := v |} |}.

(** The state after [text] was written under the key and cached. *)
Definition written (config : UseStorageConfig) (text : jsstring) (st : state)
    : state :=
  {| storage := <[name config := text]> (storage st);
     raw := Some text;
     cache := cache st |}.

(** Objects as [JSON.parse] returns them for [{"toString":null}] and
    [{"toString":1}]. *)
Definition toString_null : value := VObject [(str "toString", VNull)].
Definition toString_one : value := VObject [(str "toString", VNumber one)].

(** * Properties *)

(** ** Decimal digits: printing and reading *)

Lemma is_digit_spec c : is_digit c = true <-> 48 <= c <= 57.
Proof. unfold is_digit. lia. Qed.

Lemma uint_chars_digits u : Forall (fun c => is_digit c = true) (uint_chars u).
Proof. induction u; simpl; constructor; auto. Qed.

Lemma digits_of_digits n : Forall (fun c => is_digit c = true) (digits_of n).
Proof. apply uint_chars_digits. Qed.

Lemma fold_digits_acc u (acc : positive) :
  fold_left (fun a c => 10 * a + (c - 48)) (uint_chars u) (Z.pos acc)
  = Z.pos (Pos.of_uint_acc u acc).
Proof.
  revert acc. induction u; intros acc; simpl; [reflexivity|..];
    rewrite <- IHu; f_equal; lia.
Qed.

Lemma digits_value_uint u : digits_value (uint_chars u) = Z.of_N (Pos.of_uint u).
Proof.
  unfold digits_value.
  induction u; simpl; [reflexivity| exact IHu |..];
    apply (fold_digits_acc u).
Qed.

Lemma digits_value_digits_of n : 0 <= n -> digits_value (digits_of n) = n.
Proof.
  intros Hn. unfold digits_of. rewrite digits_value_uint.
  change (Pos.of_uint (N.to_uint (Z.to_N n))) with (N.of_uint (N.to_uint (Z.to_N n))).
  rewrite DecimalN.Unsigned.of_to. lia.
Qed.

Lemma digits_of_nonempty n : digits_of n <> [].
Proof.
  unfold digits_of. destruct (Z.to_N n) as [|p]; simpl; [discriminate|].
  pose proof (DecimalPos.Unsigned.to_uint_nonnil p) as H.
  destruct (Pos.to_uint p); simpl; congruence.
Qed.

Lemma span_digits_app ds rest :
  Forall (fun c => is_digit c = true) ds -> ends_digits rest ->
  span_digits (ds ++ rest) = (ds, rest).
Proof.
  intros Hds Hrest. induction Hds as [|c ds Hc _ IH]; simpl.
  - destruct rest as [|c r]; simpl in *; [reflexivity|]. now rewrite Hrest.
  - now rewrite Hc, IH.
Qed.

Lemma span_digits_all ds :
  Forall (fun c => is_digit c = true) ds -> span_digits ds = (ds, []).
Proof.
  intros H. rewrite <- (app_nil_r ds) at 1. now apply span_digits_app.
Qed.

Lemma fold_digits_shift ds acc :
  fold_left (fun a c => 10 * a + (c - 48)) ds acc
  = acc * 10 ^ Z.of_nat (length ds)
    + fold_left (fun a c => 10 * a + (c - 48)) ds 0.
Proof.
  revert acc. induction ds as [|c ds IH]; intros acc.
  - simpl. lia.
  - cbn [fold_left length]. rewrite IH, (IH (10 * 0 + (c - 48))).
    rewrite Nat2Z.inj_succ, Z.pow_succ_r by lia. ring.
Qed.

Lemma digits_value_app ds ds' :
  digits_value (ds ++ ds')
  = digits_value ds * 10 ^ Z.of_nat (length ds') + digits_value ds'.
Proof.
  unfold digits_value. rewrite fold_left_app. apply fold_digits_shift.
Qed.

Lemma digits_value_zeros n : digits_value (replicate n 48) = 0.
Proof.
  unfold digits_value.
  induction n as [|n IH]; [reflexivity|]. simpl. exact IH.
Qed.

Lemma zeros_digits n : Forall (fun c => is_digit c = true) (replicate n 48).
Proof. induction n; simpl; constructor; auto. Qed.

(** ** Rounding *)

Lemma pow2_pos k : 0 < pow2 k.
Proof. unfold pow2. apply Z.pow_pos_nonneg; lia. Qed.

(* b * 2^k <= a  in uniform form *)
Lemma scaled_le_iff a b k K :
  0 <= K + k -> 0 <= K - k -> 0 <= K ->
  (b * pow2 k <= a * pow2 (- k) <-> b * 2 ^ (K + k) <= a * 2 ^ K).
Proof.
  intros H1 H2 H3. unfold pow2.
  destruct (Z_le_gt_dec 0 k) as [Hk|Hk].
  - rewrite (Z.max_r 0 k), (Z.max_l 0 (- k)) by lia.
    rewrite Z.pow_add_r by lia. rewrite Z.pow_0_r.
    assert (0 < 2 ^ K) by (apply Z.pow_pos_nonneg; lia).
    split; intros; nia.
  - rewrite (Z.max_l 0 k), (Z.max_r 0 (- k)) by lia.
    replace K with ((K + k) + (- k)) at 2 by lia.
    rewrite (Z.pow_add_r 2 (K + k)) by lia. rewrite Z.pow_0_r.
    assert (0 < 2 ^ (K + k)) by (apply Z.pow_pos_nonneg; lia).
    split; intros; nia.
Qed.

Lemma scaled_lt_iff a b k K :
  0 <= K + k -> 0 <= K - k -> 0 <= K ->
  (a * pow2 (- k) < b * pow2 k <-> a * 2 ^ K < b * 2 ^ (K + k)).
Proof.
  intros H1 H2 H3.
  pose proof (scaled_le_iff a b k K H1 H2 H3). lia.
Qed.

Lemma scaled_eq_iff a b k K :
  0 <= K + k -> 0 <= K - k -> 0 <= K ->
  (a * pow2 (- k) = b * pow2 k <-> a * 2 ^ K = b * 2 ^ (K + k)).
Proof.
  intros H1 H2 H3. unfold pow2.
  destruct (Z_le_gt_dec 0 k) as [Hk|Hk].
  - rewrite (Z.max_r 0 k), (Z.max_l 0 (- k)) by lia.
    rewrite Z.pow_add_r by lia. rewrite Z.pow_0_r.
    assert (0 < 2 ^ K) by (apply Z.pow_pos_nonneg; lia).
    split; intros; nia.
  - rewrite (Z.max_l 0 k), (Z.max_r 0 (- k)) by lia.
    replace K with ((K + k) + (- k)) at 1 by lia.
    rewrite (Z.pow_add_r 2 (K + k)) by lia. rewrite Z.pow_0_r.
    assert (0 < 2 ^ (K + k)) by (apply Z.pow_pos_nonneg; lia).
    split; intros; nia.
Qed.

Lemma ilog2_ratio_spec a b :
  0 < a -> 0 < b ->
  let l := ilog2_ratio a b in
  b * pow2 l <= a * pow2 (- l) /\ a * pow2 (- (l + 1)) < b * pow2 (l + 1).
Proof.
  intros Ha Hb l.
  pose proof (Z.log2_spec a Ha) as [Ha1 Ha2].
  pose proof (Z.log2_spec b Hb) as [Hb1 Hb2].
  pose proof (Z.log2_nonneg a) as Hla. pose proof (Z.log2_nonneg b) as Hlb.
  set (la := Z.log2 a) in *. set (lb := Z.log2 b) in *.
  set (K := la + lb + 2).
  assert (HA : a * 2 ^ K < b * 2 ^ (K + (la - lb + 1))).
  { replace (K + (la - lb + 1)) with ((la + 1) + (K - lb)) by lia.
    rewrite Z.pow_add_r by lia.
    replace K with (lb + (K - lb)) at 1 by lia.
    rewrite Z.pow_add_r by lia.
    assert (0 < 2 ^ (K - lb)) by (apply Z.pow_pos_nonneg; lia).
    replace (Z.succ la) with (la + 1) in Ha2 by lia.
    assert (a * 2 ^ lb < b * 2 ^ (la + 1)).
    { apply Z.lt_le_trans with (2 ^ (la + 1) * 2 ^ lb); [|nia].
      apply Z.mul_lt_mono_pos_r; lia. }
    set (u := 2 ^ lb) in *. set (v := 2 ^ (la + 1)) in *. set (w := 2 ^ (K - lb)) in *.
    replace (a * (u * w)) with ((a * u) * w) by ring.
    replace (b * (v * w)) with ((b * v) * w) by ring.
    apply Z.mul_lt_mono_pos_r; lia. }
  assert (HB : b * 2 ^ (K + (la - lb - 1)) <= a * 2 ^ K).
  { replace (K + (la - lb - 1)) with (la + (K - lb - 1)) by lia.
    rewrite Z.pow_add_r by lia.
    replace K with ((lb + 1) + (K - lb - 1)) at 2 by lia.
    rewrite Z.pow_add_r by lia.
    assert (0 < 2 ^ (K - lb - 1)) by (apply Z.pow_pos_nonneg; lia).
    replace (Z.succ lb) with (lb + 1) in Hb2 by lia.
    assert (b * 2 ^ la <= a * 2 ^ (lb + 1)).
    { apply Z.le_trans with (2 ^ (lb + 1) * 2 ^ la); [|nia].
      apply Z.mul_le_mono_nonneg_r; lia. }
    set (u := 2 ^ la) in *. set (v := 2 ^ (lb + 1)) in *. set (w := 2 ^ (K - lb - 1)) in *.
    replace (b * (u * w)) with ((b * u) * w) by ring.
    replace (a * (v * w)) with ((a * v) * w) by ring.
    apply Z.mul_le_mono_nonneg_r; lia. }
  subst l. unfold ilog2_ratio. fold la lb.
  destruct (Z.leb_spec (b * pow2 (la - lb)) (a * pow2 (- (la - lb)))) as [Ht|Ht].
  - split; [exact Ht|].
    apply (scaled_lt_iff a b (la - lb + 1) K); [lia..|exact HA].
  - split.
    + apply (scaled_le_iff a b (la - lb - 1) K); [lia..|exact HB].
    + replace (la - lb - 1 + 1) with (la - lb) by lia. exact Ht.
Qed.

Lemma ilog2_ratio_exact a b M E :
  0 < a -> 0 < b -> 0 < M ->
  a * pow2 (- E) = M * b * pow2 E ->
  ilog2_ratio a b = Z.log2 M + E.
Proof.
  intros Ha Hb HM Hex.
  pose proof (ilog2_ratio_spec a b Ha Hb) as [Hl1 Hl2].
  set (l := ilog2_ratio a b) in *.
  pose proof (Z.log2_spec M HM) as [HM1 HM2].
  pose proof (Z.log2_nonneg M) as HlM.
  set (lM := Z.log2 M) in *.
  replace (Z.succ lM) with (lM + 1) in HM2 by lia.
  set (K := Z.abs l + Z.abs E + lM + 2).
  apply (scaled_le_iff a b l K) in Hl1; [|lia..].
  apply (scaled_lt_iff a b (l + 1) K) in Hl2; [|lia..].
  replace (M * b * pow2 E) with ((M * b) * pow2 E) in Hex by ring.
  apply (scaled_eq_iff a (M * b) E K) in Hex; [|lia..].
  rewrite Hex in Hl1, Hl2.
  assert (Hlow : b * 2 ^ (K + l) < b * 2 ^ (K + E + (lM + 1))).
  { rewrite (Z.pow_add_r 2 (K + E)) by lia.
    assert (0 < 2 ^ (K + E)) by (apply Z.pow_pos_nonneg; lia). nia. }
  assert (Hup : b * 2 ^ (K + E + lM) < b * 2 ^ (K + (l + 1))).
  { rewrite (Z.pow_add_r 2 (K + E)) by lia.
    assert (0 < 2 ^ (K + E)) by (apply Z.pow_pos_nonneg; lia). nia. }
  assert (2 ^ (K + l) < 2 ^ (K + E + (lM + 1))) by nia.
  assert (2 ^ (K + E + lM) < 2 ^ (K + (l + 1))) by nia.
  apply Z.pow_lt_mono_r_iff in H; [|lia..].
  apply Z.pow_lt_mono_r_iff in H0; [|lia..].
  lia.
Qed.

Lemma round_ratio_exact neg a b M E :
  0 < a -> 0 < b -> canonical M E = true ->
  a * pow2 (- E) = M * b * pow2 E ->
  round_ratio neg a b = Finite neg M E.
Proof.
  intros Ha Hb Hc Hex.
  assert (HM : 0 < M) by (unfold canonical in Hc; lia).
  unfold round_ratio. rewrite (ilog2_ratio_exact a b M E Ha Hb HM Hex).
  assert (He : Z.max (Z.log2 M + E - 52) (-1074) = E).
  { unfold canonical in Hc.
    apply orb_true_iff in Hc as [Hc|Hc].
    - assert (Z.log2 M = 52); [|lia].
      apply Z.log2_unique; lia.
    - assert (Z.log2 M < 52); [|lia].
      apply Z.log2_lt_pow2; lia. }
  rewrite He. cbv zeta.
  pose proof (pow2_pos E).
  assert (Hden : 0 < b * pow2 E) by nia.
  rewrite Hex. replace (M * b * pow2 E) with (M * (b * pow2 E)) by ring.
  rewrite Z.div_mul, Z.mod_mul by lia.
  destruct (Z.ltb_spec (b * pow2 E) (2 * 0)) as [?|_]; [lia|].
  destruct (Z.eqb_spec (b * pow2 E) (2 * 0)) as [?|_]; [lia|].
  cbn [orb andb].
  unfold canonical in Hc.
  destruct (Z.eqb_spec M 0); [lia|].
  destruct (Z.eqb_spec M (2^53)); [lia|].
  destruct (Z.ltb_spec 971 E); [lia|]. reflexivity.
Qed.

Lemma round_decimal_exact neg m e :
  canonical m e = true ->
  round_decimal neg (exact_decimal m e).1 (exact_decimal m e).2 = Finite neg m e.
Proof.
  intros Hc.
  assert (Hm : 0 < m) by (unfold canonical in Hc; lia).
  unfold exact_decimal, round_decimal.
  destruct (Z.leb_spec 0 e) as [He|He]; cbn [fst snd].
  - assert (0 < 2 ^ e) by (apply Z.pow_pos_nonneg; lia).
    destruct (Z.eqb_spec (m * 2 ^ e) 0); [nia|].
    change (10 ^ Z.max 0 0) with 1. change (10 ^ Z.max 0 (- 0)) with 1.
    rewrite Z.mul_1_r.
    apply round_ratio_exact; [nia|lia|exact Hc|].
    unfold pow2. rewrite (Z.max_r 0 e), (Z.max_l 0 (- e)) by lia.
    rewrite Z.pow_0_r. ring.
  - assert (0 < 5 ^ (- e)) by (apply Z.pow_pos_nonneg; lia).
    assert (0 < 10 ^ (- e)) by (apply Z.pow_pos_nonneg; lia).
    destruct (Z.eqb_spec (m * 5 ^ (- e)) 0); [nia|].
    rewrite (Z.max_l 0 e), (Z.max_r 0 (- e)) by lia.
    rewrite Z.pow_0_r, Z.mul_1_r.
    apply round_ratio_exact; [nia|lia|exact Hc|].
    unfold pow2. rewrite (Z.max_l 0 e), (Z.max_r 0 (- e)) by lia.
    rewrite Z.pow_0_r.
    change 10 with (2 * 5). rewrite Z.pow_mul_l. ring.
Qed.

Lemma first_decimal_cases ok cands ks last :
  first_decimal ok cands ks last = last
  \/ ok (first_decimal ok cands ks last) = true.
Proof.
  induction ks as [|k ks IH]; cbn [first_decimal]; [now left|].
  destruct (find ok (cands k)) as [c|] eqn:E; [|exact IH].
  right. now apply find_some in E.
Qed.

Lemma shortest_decimal_sound m e :
  canonical m e = true ->
  round_decimal false (shortest_decimal m e).1 (shortest_decimal m e).2
  = Finite false m e.
Proof.
  intros Hc. unfold shortest_decimal.
  pose proof (round_decimal_exact false m e Hc) as Hex.
  destruct (exact_decimal m e) as [s ex]. cbn [fst snd] in Hex.
  match goal with
  | |- context [first_decimal ?ok ?cands ?ks ?last] =>
      destruct (first_decimal_cases ok cands ks last) as [->|H]
  end.
  - exact Hex.
  - now apply bool_decide_eq_true in H.
Qed.

Lemma candidates_nonneg s ex d k c :
  0 <= s -> In c (candidates s ex d k) -> 0 <= c.1.
Proof.
  intros Hs. unfold candidates.
  assert (H1 : 0 <= s / 10 ^ (d - k)).
  { apply Z_div_nonneg_nonneg; [lia|]. apply Z.pow_nonneg. lia. }
  assert (H2 : 0 <= 10 ^ (k - 1)) by (apply Z.pow_nonneg; lia).
  destruct (_ || _), (_ =? _); cbn [In]; intros [<-|[<-|[]]]; cbn [fst]; lia.
Qed.

Lemma first_decimal_nonneg ok cands ks last :
  0 <= last.1 -> (forall k c, In c (cands k) -> 0 <= c.1) ->
  0 <= (first_decimal ok cands ks last).1.
Proof.
  intros Hl Hc. induction ks as [|k ks IH]; cbn [first_decimal]; [exact Hl|].
  destruct (find ok (cands k)) as [c|] eqn:E; [|exact IH].
  apply find_some in E as [E _]. eapply Hc, E.
Qed.

Lemma shortest_decimal_pos m e :
  canonical m e = true -> 0 < (shortest_decimal m e).1.
Proof.
  intros Hc.
  assert (Hm : 0 < m) by (unfold canonical in Hc; lia).
  pose proof (shortest_decimal_sound m e Hc) as Hr.
  assert (Hn : 0 <= (shortest_decimal m e).1).
  { unfold shortest_decimal.
    assert (He : 0 <= (exact_decimal m e).1).
    { unfold exact_decimal. destruct (0 <=? e); cbn [fst];
        apply Z.mul_nonneg_nonneg; try lia; apply Z.pow_nonneg; lia. }
    destruct (exact_decimal m e) as [s ex]. cbn [fst] in He.
    apply first_decimal_nonneg; [exact He|].
    intros k c. now apply candidates_nonneg. }
  unfold round_decimal in Hr.
  destruct (Z.eqb_spec (shortest_decimal m e).1 0); [discriminate|lia].
Qed.

Lemma round_decimal_sign neg s ex m e :
  round_decimal false s ex = Finite false m e ->
  round_decimal neg s ex = Finite neg m e.
Proof.
  unfold round_decimal, round_ratio. cbv zeta.
  repeat match goal with
         | |- context [if ?b then _ else _] => destruct b
         end; intros H; inversion H; subst; reflexivity.
Qed.

(** ** parseFloat on the output of Number::toString *)

Lemma starts_with_Infinity_digit c r :
  is_digit c = true -> starts_with (str "Infinity") (c :: r) = false.
Proof.
  intros Hc. apply is_digit_spec in Hc. eval_str. cbn [starts_with].
  destruct (Z.eqb_spec 73 c); [lia|reflexivity].
Qed.

Lemma literal_no_fraction neg ip r2 :
  ip <> [] -> Forall (fun c => is_digit c = true) ip ->
  ends_digits r2 -> (forall t, r2 <> 46 :: t) ->
  StrUnsignedDecimalLiteral neg (ip ++ r2)
  = round_decimal neg (digits_value ip) (exponent_part r2).
Proof.
  intros Hne Hip Hend Hdot. unfold StrUnsignedDecimalLiteral.
  destruct ip as [|c ip']; [congruence|].
  rewrite <- app_comm_cons, starts_with_Infinity_digit
    by (inversion Hip; assumption).
  rewrite app_comm_cons, (span_digits_app _ _ Hip Hend).
  assert (Hr : match r2 with
               | 46 :: t => span_digits t
               | _ => ([], r2)
               end = ([], r2)).
  { destruct r2 as [|d t]; [reflexivity|].
    destruct (Z.eq_dec d 46) as [->|Hd]; [now destruct (Hdot t)|].
    destruct d as [|p|p]; try reflexivity.
    do 6 (destruct p as [p|p|]; try reflexivity). congruence. }
  rewrite Hr, app_nil_r. cbn [length Z.of_nat]. rewrite Z.sub_0_r.
  reflexivity.
Qed.

Lemma literal_fraction neg ip fp r2 :
  ip <> [] -> Forall (fun c => is_digit c = true) ip ->
  Forall (fun c => is_digit c = true) fp -> ends_digits r2 ->
  StrUnsignedDecimalLiteral neg (ip ++ 46 :: fp ++ r2)
  = round_decimal neg (digits_value (ip ++ fp))
                  (exponent_part r2 - Z.of_nat (length fp)).
Proof.
  intros Hne Hip Hfp Hend. unfold StrUnsignedDecimalLiteral.
  destruct ip as [|c ip']; [congruence|].
  rewrite <- app_comm_cons, starts_with_Infinity_digit
    by (inversion Hip; assumption).
  rewrite app_comm_cons, (span_digits_app _ (46 :: fp ++ r2) Hip) by reflexivity.
  rewrite (span_digits_app _ _ Hfp Hend).
  rewrite <- app_comm_cons. reflexivity.
Qed.

Lemma literal_fraction_end neg ip fp :
  ip <> [] -> Forall (fun c => is_digit c = true) ip ->
  Forall (fun c => is_digit c = true) fp ->
  StrUnsignedDecimalLiteral neg (ip ++ 46 :: fp)
  = round_decimal neg (digits_value (ip ++ fp)) (- Z.of_nat (length fp)).
Proof.
  intros Hne Hip Hfp.
  pose proof (literal_fraction neg ip fp [] Hne Hip Hfp I) as H.
  rewrite app_nil_r in H. exact H.
Qed.

Lemma exponent_part_format x :
  exponent_part (str "e" ++ (if x <? 0 then str "-" else str "+")
                 ++ digits_of (Z.abs x)) = x.
Proof.
  assert (Hs : forall ds, ds <> [] ->
             match ds with [] => 0 | _ => digits_value ds end = digits_value ds)
    by (intros [|? ?]; congruence).
  pose proof (digits_of_nonempty (Z.abs x)) as Hne.
  pose proof (digits_value_digits_of (Z.abs x) ltac:(lia)) as Hv.
  destruct (Z.ltb_spec x 0); eval_str;
    cbv [exponent_part app signed_digits Z.eqb Pos.eqb orb];
    rewrite (span_digits_all _ (digits_of_digits _));
    destruct (digits_of (Z.abs x)) eqn:E; try congruence; rewrite Hv; lia.
Qed.

Lemma round_decimal_scale neg s ex :
  0 < s -> 0 <= ex -> round_decimal neg (s * 10 ^ ex) 0 = round_decimal neg s ex.
Proof.
  intros Hs Hex. unfold round_decimal.
  assert (0 < 10 ^ ex) by (apply Z.pow_pos_nonneg; lia).
  destruct (Z.eqb_spec (s * 10 ^ ex) 0); [nia|].
  destruct (Z.eqb_spec s 0); [lia|].
  rewrite (Z.max_r 0 ex), (Z.max_l 0 (- ex)) by lia.
  cbn [Z.opp Z.max Z.compare]. rewrite Z.pow_0_r, Z.mul_1_r. reflexivity.
Qed.

Lemma ends_digits_exponent t : ends_digits (str "e" ++ t).
Proof. reflexivity. Qed.

Lemma literal_exponent neg ds x :
  ds <> [] -> Forall (fun c => is_digit c = true) ds ->
  StrUnsignedDecimalLiteral neg
    (let es := (if x <? 0 then str "-" else str "+") ++ digits_of (Z.abs x) in
     match ds with
     | [] => []
     | [c] => [c] ++ str "e" ++ es
     | c :: rest => [c] ++ str "." ++ rest ++ str "e" ++ es
     end)
  = round_decimal neg (digits_value ds) (x - (Z.of_nat (length ds) - 1)).
Proof.
  intros Hne Hds. cbv zeta.
  destruct ds as [|c [|c' rest]]; [congruence| |].
  - rewrite literal_no_fraction; try done.
    rewrite exponent_part_format. f_equal. cbn [length]. lia.
  - change ([c] ++ str "." ++ (c' :: rest) ++ str "e" ++ ?es)
      with ([c] ++ 46 :: (c' :: rest) ++ (str "e" ++ es)).
    rewrite literal_fraction; try done.
    + rewrite exponent_part_format. change ([c] ++ c' :: rest) with (c :: c' :: rest).
      f_equal. cbn [length]. lia.
    + constructor; [|constructor]. now inversion Hds.
    + now inversion Hds.
Qed.

Lemma StrUnsignedDecimalLiteral_format neg s ex :
  0 < s ->
  StrUnsignedDecimalLiteral neg (format_decimal s ex) = round_decimal neg s ex.
Proof.
  intros Hs. unfold format_decimal.
  pose proof (digits_of_digits s) as Hds.
  pose proof (digits_of_nonempty s) as Hne.
  pose proof (digits_value_digits_of s ltac:(lia)) as Hv.
  set (ds := digits_of s) in *.
  set (k := Z.of_nat (length ds)).
  assert (Hk : 0 < k) by (subst k; destruct ds; [congruence|cbn [length]; lia]).
  set (n := ex + k).
  assert (Hexp : StrUnsignedDecimalLiteral neg
    (let es := (if n - 1 <? 0 then str "-" else str "+")
               ++ digits_of (Z.abs (n - 1)) in
     match ds with
     | [] => []
     | [c] => [c] ++ str "e" ++ es
     | c :: rest => [c] ++ str "." ++ rest ++ str "e" ++ es
     end) = round_decimal neg s ex).
  { rewrite (literal_exponent neg ds (n - 1) Hne Hds), Hv. f_equal.
    subst n k. lia. }
  destruct ((k <=? n) && (n <=? 21)) eqn:C1.
  - (* the digits, then zeros *)
    rewrite <- (app_nil_r (ds ++ _)).
    rewrite literal_no_fraction; try done.
    + rewrite digits_value_app, digits_value_zeros, length_replicate, Hv.
      cbn [exponent_part]. rewrite Z.add_0_r, Z2Nat.id by lia.
      rewrite round_decimal_scale by lia. f_equal. subst n. lia.
    + destruct ds; [congruence|discriminate].
    + apply Forall_app. split; [exact Hds|apply zeros_digits].
  - destruct ((0 <? n) && (n <=? 21)) eqn:C2.
    + (* a decimal point inside the digits *)
      change (take (Z.to_nat n) ds ++ str "." ++ drop (Z.to_nat n) ds)
        with (take (Z.to_nat n) ds ++ 46 :: drop (Z.to_nat n) ds).
      rewrite literal_fraction_end; try done.
      * rewrite take_drop, Hv, length_drop.
        f_equal. subst n k. lia.
      * intros Ht. apply (f_equal (@length Z)) in Ht.
        rewrite length_take in Ht. cbn [length] in Ht.
        destruct ds; [congruence|].
        destruct (Z.to_nat n) eqn:En; [lia|discriminate].
      * now apply Forall_take.
      * now apply Forall_drop.
    + destruct ((-6 <? n) && (n <=? 0)) eqn:C3; [|exact Hexp].
      (* zeros after the decimal point *)
      change (str "0." ++ ?z ++ ds) with ([48] ++ 46 :: (z ++ ds)).
      rewrite literal_fraction_end; try done.
      * change ([48] ++ ?x) with (48 :: x).
        change (digits_value (48 :: ?x)) with (digits_value x).
        rewrite digits_value_app, digits_value_zeros, Hv.
        rewrite length_app, length_replicate.
        f_equal. subst n k. lia.
      * repeat constructor.
      * apply Forall_app. split; [apply zeros_digits|exact Hds].
Qed.

Lemma format_decimal_head s ex :
  exists c r, format_decimal s ex = c :: r /\ is_digit c = true.
Proof.
  unfold format_decimal.
  pose proof (digits_of_digits s) as Hds.
  pose proof (digits_of_nonempty s) as Hne.
  destruct (digits_of s) as [|c ds]; [congruence|].
  assert (Hc : is_digit c = true) by now inversion Hds.
  set (n := ex + Z.of_nat (length (c :: ds))).
  assert (Hd0 : is_digit 48 = true) by reflexivity.
  destruct ((_ <=? n) && (n <=? 21));
    [cbn [app]; do 2 eexists; split; [reflexivity|assumption]|].
  destruct ((0 <? n) && (n <=? 21)) eqn:C2.
  - destruct (Z.to_nat n) eqn:En; [lia|]. cbn [take app].
    do 2 eexists; split; [reflexivity|assumption].
  - destruct ((-6 <? n) && (n <=? 0)).
    + eval_str. cbn [app]. do 2 eexists; split; [reflexivity|assumption].
    + destruct ds; cbn [app]; do 2 eexists; split; try reflexivity; assumption.
Qed.

Lemma parseFloat_digit_head c r :
  is_digit c = true ->
  parseFloat (c :: r) = StrUnsignedDecimalLiteral false (c :: r).
Proof.
  intros Hc. apply is_digit_spec in Hc.
  unfold parseFloat. cbn [trim_start].
  assert (Hw : is_StrWhiteSpaceChar c = false) by (unfold is_StrWhiteSpaceChar; lia).
  rewrite Hw.
  destruct c as [|p|p]; try reflexivity.
  do 6 (destruct p as [p|p|]; try reflexivity); lia.
Qed.

Lemma parseFloat_minus r :
  parseFloat (45 :: r) = StrUnsignedDecimalLiteral true r.
Proof. reflexivity. Qed.

(** [parseFloat] reads back the Number that [Number::toString] printed;
    only the sign of zero is lost, and NaN stays NaN. *)
Lemma parseFloat_Number_toString x :
  is_Number x = true ->
  parseFloat (Number_toString x)
  = match x with Zero _ => Zero false | _ => x end.
Proof.
  intros Hx. destruct x as [|neg|neg|neg m e]; cbn [is_Number] in Hx.
  - reflexivity.
  - now destruct neg.
  - reflexivity.
  - cbn [Number_toString].
    pose proof (shortest_decimal_sound m e Hx) as Hr.
    pose proof (shortest_decimal_pos m e Hx) as Hp.
    destruct (shortest_decimal m e) as [s ex]. cbn [fst snd] in Hr, Hp.
    apply (round_decimal_sign neg) in Hr.
    destruct neg.
    + change (str "-" ++ ?t) with (45 :: t).
      rewrite parseFloat_minus, StrUnsignedDecimalLiteral_format by exact Hp.
      exact Hr.
    + cbn [app].
      destruct (format_decimal_head s ex) as (c & r & E & Hc).
      rewrite E, parseFloat_digit_head by exact Hc.
      rewrite <- E, StrUnsignedDecimalLiteral_format by exact Hp.
      exact Hr.
Qed.

(** ** JSON.parse on a text that does not open a container *)

Lemma scan_number_first acc r toks :
  JSON.scan (JSON.MNumber acc) r = Some toks ->
  exists n ts, toks = JSON.TNumber n :: ts.
Proof.
  revert acc toks. induction r as [|c r IH]; intros acc toks; cbn [JSON.scan].
  - destruct (JSON.number_value (rev acc)); cbn; [|discriminate].
    intros [= <-]. eauto.
  - cbn [JSON.step]. destruct (JSON.is_number_char c).
    + destruct (JSON.scan (JSON.MNumber (c :: acc)) r) as [ts|] eqn:E;
        cbn; [|discriminate].
      intros [= <-]. cbn [app]. eapply IH, E.
    + destruct (JSON.number_value (rev acc)) as [n|]; [|discriminate].
      destruct (JSON.step_default c) as [[ts m']|]; [|discriminate].
      destruct (JSON.scan m' r); cbn; [|discriminate].
      intros [= <-]. cbn [app]. eauto.
Qed.

Lemma run_number_first n ts v :
  JSON.run (JSON.TNumber n :: ts) [] JSON.EValue = Some v -> v = VNumber n.
Proof.
  cbn. destruct ts; cbn; [|discriminate]. now intros [= <-].
Qed.

Lemma step_default_number c :
  is_digit c = true \/ c = 45 ->
  JSON.step_default c = Some ([], JSON.MNumber [c]).
Proof.
  intros Hc. rewrite is_digit_spec in Hc. unfold JSON.step_default.
  repeat match goal with
         | |- context [?a =? ?b] =>
             destruct (Z.eqb_spec a b); [lia|]
         end.
  cbn [orb].
  destruct (is_digit c) eqn:Hd; [reflexivity|].
  destruct (Z.eqb_spec c 45); [reflexivity|].
  unfold is_digit in Hd. lia.
Qed.

Lemma parse_number_head c r v :
  is_digit c = true \/ c = 45 ->
  JSON.parse (c :: r) = Some v -> exists n, v = VNumber n.
Proof.
  intros Hc. unfold JSON.parse. cbn [JSON.scan JSON.step].
  rewrite (step_default_number c Hc).
  destruct (JSON.scan (JSON.MNumber [c]) r) as [toks|] eqn:E; cbn; [|discriminate].
  destruct (scan_number_first _ _ _ E) as (n & ts & ->).
  intros H. exists n. eapply run_number_first, H.
Qed.

Lemma parseString_try_number_head c r :
  is_digit c = true \/ c = 45 -> parseString_try (c :: r) = None.
Proof.
  intros Hc. unfold parseString_try.
  destruct (JSON.parse (c :: r)) as [v|] eqn:E; [|reflexivity].
  destruct (parse_number_head c r v Hc E) as [n ->]. reflexivity.
Qed.

Lemma parseString_try_Number_toString x :
  parseString_try (Number_toString x) = None.
Proof.
  destruct x as [|neg|neg|neg m e]; cbn [Number_toString].
  - reflexivity.
  - now destruct neg.
  - reflexivity.
  - destruct (shortest_decimal m e) as [s ex].
    destruct (format_decimal_head s ex) as (c & r & E & Hc).
    destruct neg.
    + change (str "-" ++ ?t) with (45 :: t).
      apply parseString_try_number_head. now right.
    + cbn [app]. rewrite E. apply parseString_try_number_head. now left.
Qed.

Lemma round_decimal_not_NaN neg s ex : isNaN (round_decimal neg s ex) = false.
Proof.
  unfold round_decimal, round_ratio. cbv zeta.
  repeat match goal with
         | |- context [if ?b then _ else _] => destruct b
         end; reflexivity.
Qed.

(** Text after a run of digits that cannot extend the literal is ignored. *)
Lemma parseFloat_leading_digits ds rest :
  ds <> [] -> Forall (fun c => is_digit c = true) ds ->
  ends_digits rest -> (forall t, rest <> 46 :: t) -> exponent_part rest = 0 ->
  parseFloat (ds ++ rest) = parseFloat ds
  /\ isNaN (parseFloat ds) = false.
Proof.
  intros Hne Hds Hend Hdot Hexp.
  destruct ds as [|c ds']; [congruence|].
  assert (Hc : is_digit c = true) by now inversion Hds.
  assert (Hp : parseFloat (c :: ds')
               = round_decimal false (digits_value (c :: ds')) 0).
  { rewrite parseFloat_digit_head by exact Hc.
    rewrite <- (app_nil_r (c :: ds')) at 1.
    now rewrite literal_no_fraction. }
  rewrite Hp. split; [|apply round_decimal_not_NaN].
  rewrite <- app_comm_cons, parseFloat_digit_head by exact Hc.
  rewrite app_comm_cons, literal_no_fraction by assumption.
  now rewrite Hexp.
Qed.

(** ** The coercion routine *)

Lemma parseString_try_composite s v :
  parseString_try s = Some v -> JSON.parse s = Some v /\ is_composite v = true.
Proof.
  unfold parseString_try. destruct (JSON.parse s) as [w|]; [|discriminate].
  destruct w; cbn; try discriminate; intros [= <-]; auto.
Qed.

Lemma parseString_try_parse s v :
  JSON.parse s = Some v -> is_composite v = true -> parseString_try s = Some v.
Proof.
  unfold parseString_try. intros -> Hv. now destruct v.
Qed.

Lemma parseString_try_scalar s :
  (forall v, JSON.parse s = Some v -> is_composite v = false) ->
  parseString_try s = None.
Proof.
  intros H. destruct (parseString_try s) as [v|] eqn:E; [|reflexivity].
  apply parseString_try_composite in E as [E Hv]. apply H in E. congruence.
Qed.

Lemma parseString_later_stages s :
  parseString_try s = None -> parseString s = later_stages s.
Proof.
  intros H. unfold parseString, later_stages. rewrite H.
  destruct (negb _); [reflexivity|].
  destruct (bool_decide (s = str "true")); [reflexivity|].
  now destruct (bool_decide (s = str "false")).
Qed.

(** X1: coercion always answers with one of the four kinds of the
    source: an object or an array, a number that is not NaN, a boolean, or
    the text itself; never with [undefined], [null], NaN or another text. *)
Lemma parseString_kinds s :
  is_composite (parseString s) = true
  \/ (exists n, parseString s = VNumber n /\ isNaN n = false)
  \/ (exists b, parseString s = VBoolean b)
  \/ parseString s = VString s.
Proof.
  unfold parseString.
  destruct (parseString_try s) as [v|] eqn:Ht.
  - left. now apply parseString_try_composite in Ht.
  - right. destruct (isNaN (parseFloat s)) eqn:Hn; cbn [negb]; [|eauto].
    right. destruct (_ || _); eauto.
Qed.

(** C3: the structured parse comes first.  Whenever [JSON.parse] yields an
    object or an array, [parseString] returns that very value; the text
    [{"a":1}] gives the object with the single property [a] equal to 1 and
    not a string; and whenever [JSON.parse] throws or yields anything else,
    the answer is that of the numeric, boolean and identity stages, tried in
    this order. *)
Theorem parseString_structured_first :
  (forall s v, JSON.parse s = Some v -> is_composite v = true ->
               parseString s = v)
  /\ parseString (str "{" ++ dquote ++ str "a" ++ dquote ++ str ":1}")
     = VObject [(str "a", VNumber one)]
  /\ (forall s, (forall v, JSON.parse s = Some v -> is_composite v = false) ->
                parseString s = later_stages s).
Proof.
  split; [|split].
  - intros s v Hp Hv. unfold parseString.
    now rewrite (parseString_try_parse s v Hp Hv).
  - vm_compute. reflexivity.
  - intros s H. apply parseString_later_stages, parseString_try_scalar, H.
Qed.

Lemma parseString_structured_first_witness :
  parseString (str "[1]") = VArray [VNumber one]
  /\ parseString (str "true") = later_stages (str "true").
Proof.
  split.
  - apply (proj1 parseString_structured_first); vm_compute; reflexivity.
  - apply (proj2 (proj2 parseString_structured_first)).
    intros v. vm_compute. intros [= <-]. reflexivity.
Defined.

(** C5, amended: the numeric stage keeps every result of [parseFloat] that
    is not NaN.  For a text the structured stage does not claim, if
    [parseFloat] of the text is not NaN then [parseString] returns that
    number; a run of digits followed by text that cannot extend the literal
    is read as the run alone, so ["3abc"] gives 3; a number returned by
    [parseString] is always the [parseFloat] of the text and never NaN; and
    the infinities are returned, for ["Infinity"] and for a literal that
    overflows. *)
Theorem parseString_numeric_stage :
  (forall s, parseString_try s = None -> isNaN (parseFloat s) = false ->
             parseString s = VNumber (parseFloat s))
  /\ (forall ds rest,
        ds <> [] -> Forall (fun c => is_digit c = true) ds ->
        ends_digits rest -> (forall t, rest <> 46 :: t) ->
        exponent_part rest = 0 ->
        parseString (ds ++ rest) = VNumber (parseFloat ds))
  /\ parseString (str "3abc") = VNumber three
  /\ (forall s n, parseString s = VNumber n ->
                  n = parseFloat s /\ isNaN n = false)
  /\ parseString (str "Infinity") = VNumber (Infinity false)
  /\ parseString (str "-1e999") = VNumber (Infinity true).
Proof.
  split; [|split; [|split; [|split; [|split]]]].
  - intros s Ht Hn. unfold parseString. now rewrite Ht, Hn.
  - intros ds rest Hne Hds Hend Hdot Hexp.
    destruct (parseFloat_leading_digits ds rest Hne Hds Hend Hdot Hexp) as [E Hn].
    assert (Ht : parseString_try (ds ++ rest) = None).
    { destruct ds as [|c ds']; [congruence|].
      apply (parseString_try_number_head c (ds' ++ rest)).
      left. now inversion Hds. }
    unfold parseString. rewrite Ht, E, Hn. reflexivity.
  - vm_compute. reflexivity.
  - intros s n. unfold parseString.
    destruct (parseString_try s) as [v|] eqn:Ht.
    + apply parseString_try_composite in Ht as [_ Hv].
      intros ->. discriminate.
    + destruct (isNaN (parseFloat s)) eqn:Hn; cbn [negb].
      * destruct (_ || _); discriminate.
      * intros [= <-]. auto.
  - vm_compute. reflexivity.
  - vm_compute. reflexivity.
Qed.

Lemma parseString_numeric_stage_witness :
  parseString (str "12px") = VNumber (parseFloat (str "12px"))
  /\ parseString (str "3" ++ str "abc") = VNumber (parseFloat (str "3"))
  /\ isNaN three = false.
Proof.
  split; [|split].
  - apply (proj1 parseString_numeric_stage); vm_compute; reflexivity.
  - apply (proj1 (proj2 parseString_numeric_stage)).
    + discriminate.
    + repeat constructor.
    + reflexivity.
    + discriminate.
    + reflexivity.
  - apply (proj1 (proj2 (proj2 (proj2 parseString_numeric_stage))) (str "3abc")).
    vm_compute. reflexivity.
Defined.

(** C5, as stated, fails: on the text ["Infinity"] the numeric stage
    returns a number that is not finite. *)
Lemma parseString_returns_Infinity :
  parseString (str "Infinity") = VNumber (Infinity false)
  /\ isFinite (Infinity false) = false.
Proof. split; vm_compute; reflexivity. Qed.

(** C7, amended: coercion reads back what [String] printed for every
    Number but NaN, for both booleans, and for every text without a
    structured, numeric or boolean form.  The Number read back is the one
    printed, except that -0 comes back as +0, which [==] does not tell
    apart; NaN is printed as ["NaN"] and comes back as that text; the
    empty text comes back as itself. *)
Theorem parseString_String_roundtrip :
  (forall x, is_Number x = true -> isNaN x = false ->
     result_map parseString (String (VNumber x))
     = Return (VNumber (match x with Zero _ => Zero false | _ => x end))
     /\ Number_equal (match x with Zero _ => Zero false | _ => x end) x = true)
  /\ result_map parseString (String (VNumber NaN)) = Return (VString (str "NaN"))
  /\ (forall b, result_map parseString (String (VBoolean b))
                = Return (VBoolean b))
  /\ (forall s, parseString_try s = None -> isNaN (parseFloat s) = true ->
                s <> str "true" -> s <> str "false" ->
                parseString s = VString s)
  /\ parseString (str "") = VString (str "").
Proof.
  split; [|split; [|split; [|split]]].
  - intros x Hx Hn. split.
    + cbn [String result_map]. f_equal. unfold parseString.
      rewrite parseString_try_Number_toString, parseFloat_Number_toString by exact Hx.
      destruct x; try discriminate; reflexivity.
    + destruct x as [|neg|neg|neg m e]; try discriminate; cbn [Number_equal].
      * now apply bool_decide_eq_true.
      * reflexivity.
      * now apply bool_decide_eq_true.
  - vm_compute. reflexivity.
  - intros []; vm_compute; reflexivity.
  - intros s Ht Hn H1 H2. rewrite (parseString_later_stages s Ht).
    unfold later_stages. rewrite Hn. cbn [negb].
    rewrite !bool_decide_eq_false_2 by assumption. reflexivity.
  - vm_compute. reflexivity.
Qed.

Lemma parseString_String_roundtrip_witness :
  result_map parseString (String (VNumber (Finite true (5 * 2 ^ 50) (-52))))
  = Return (VNumber (Finite true (5 * 2 ^ 50) (-52)))
  /\ parseString (str "hello") = VString (str "hello").
Proof.
  split.
  - apply (proj1 parseString_String_roundtrip (Finite true (5 * 2 ^ 50) (-52)));
      vm_compute; reflexivity.
  - apply (proj1 (proj2 (proj2 (proj2 parseString_String_roundtrip))));
      vm_compute; first [reflexivity | discriminate].
Defined.

(** C7, as stated, fails: the Number NaN is printed as ["NaN"], which
    coerces to that text and not to a number. *)
Lemma parseString_String_NaN :
  result_map parseString (String (VNumber NaN)) = Return (VString (str "NaN"))
  /\ result_map parseString (String (VNumber NaN)) <> Return (VNumber NaN).
Proof. split; vm_compute; [reflexivity|discriminate]. Qed.

(** ** The numbers that rounding produces *)

Lemma round_ratio_is_Number neg a b :
  0 < a -> 0 < b -> is_Number (round_ratio neg a b) = true.
Proof.
  intros Ha Hb.
  pose proof (ilog2_ratio_spec a b Ha Hb) as [Hl1 Hl2].
  unfold round_ratio.
  set (l := ilog2_ratio a b) in *.
  set (e := Z.max (l - 52) (-1074)).
  pose proof (pow2_pos e) as Hpe. pose proof (pow2_pos (- e)) as Hpne.
  set (num := a * pow2 (- e)). set (den := b * pow2 e).
  assert (Hden : 0 < den) by (subst den; nia).
  assert (Hnum : 0 <= num) by (subst num; nia).
  set (K := Z.abs l + Z.abs e + 60).
  apply (scaled_le_iff a b l K) in Hl1; [|lia..].
  apply (scaled_lt_iff a b (l + 1) K) in Hl2; [|lia..].
  (* the quotient is below 2^53, and below 2^52 on the least exponent *)
  set (j := Z.max 0 (l + 1 - e)).
  assert (Hup : num < den * 2 ^ j).
  { subst num den.
    replace (b * pow2 e * 2 ^ j) with ((b * 2 ^ j) * pow2 e) by ring.
    apply (scaled_lt_iff a (b * 2 ^ j) e K); [lia..|].
    assert (2 ^ (K + (l + 1)) <= 2 ^ (j + (K + e)))
      by (apply Z.pow_le_mono_r; lia).
    rewrite (Z.pow_add_r 2 j (K + e)) in H by lia.
    apply Z.lt_le_trans with (b * 2 ^ (K + (l + 1))); [exact Hl2|].
    rewrite <- Z.mul_assoc. apply Z.mul_le_mono_nonneg_l; lia. }
  assert (Hq0 : 0 <= num / den) by (apply Z.div_pos; lia).
  assert (Hqup : num / den < 2 ^ j).
  { apply Z.div_lt_upper_bound; [lia|]. lia. }
  assert (Hqlow : e = l - 52 -> 2 ^ 52 <= num / den).
  { intros He. apply Z.div_le_lower_bound; [lia|].
    subst num den.
    replace (b * pow2 e * 2 ^ 52) with ((b * 2 ^ 52) * pow2 e) by ring.
    apply (scaled_le_iff a (b * 2 ^ 52) e K); [lia..|].
    replace (K + l) with (52 + (K + e)) in Hl1 by lia.
    rewrite (Z.pow_add_r 2 52 (K + e)) in Hl1 by lia. lia. }
  assert (Hpow : 2 ^ j <= 2 ^ 53)
    by (apply Z.pow_le_mono_r; lia).
  assert (Hpow' : -1074 = e -> l - 52 < e -> 2 ^ j <= 2 ^ 52)
    by (intros; apply Z.pow_le_mono_r; lia).
  cbv zeta.
  set (q := num / den) in *.
  match goal with
  | |- context [if ?c then q + 1 else q] => set (m := if c then q + 1 else q)
  end.
  assert (Hm : q <= m <= q + 1).
  { subst m. match goal with |- context [if ?c then _ else _] => destruct c end; lia. }
  destruct (Z.eqb_spec m 0); [reflexivity|].
  destruct (Z.eqb_spec m (2 ^ 53)).
  - destruct (Z.ltb_spec 971 (e + 1)); [reflexivity|].
    cbn [is_Number]. unfold canonical. lia.
  - destruct (Z.ltb_spec 971 e); [reflexivity|].
    cbn [is_Number]. unfold canonical.
    destruct (Z.eq_dec e (l - 52)) as [He|He].
    + specialize (Hqlow He). lia.
    + assert (He' : -1074 = e) by lia. specialize (Hpow' He' ltac:(lia)). lia.
Qed.

Lemma round_decimal_is_Number neg s ex :
  0 <= s -> is_Number (round_decimal neg s ex) = true.
Proof.
  intros Hs. unfold round_decimal.
  destruct (Z.eqb_spec s 0); [reflexivity|].
  apply round_ratio_is_Number.
  - apply Z.mul_pos_pos; [lia|]. apply Z.pow_pos_nonneg; lia.
  - apply Z.pow_pos_nonneg; lia.
Qed.

Lemma span_digits_digits s :
  Forall (fun c => is_digit c = true) (span_digits s).1.
Proof.
  induction s as [|c r IH]; cbn [span_digits]; [constructor|].
  destruct (is_digit c) eqn:Hc; [|constructor].
  destruct (span_digits r) as [ds t]. cbn [fst] in *. now constructor.
Qed.

Lemma digits_value_nonneg ds :
  Forall (fun c => is_digit c = true) ds -> 0 <= digits_value ds.
Proof.
  unfold digits_value.
  assert (H : forall acc, 0 <= acc ->
            Forall (fun c => is_digit c = true) ds ->
            0 <= fold_left (fun a c => 10 * a + (c - 48)) ds acc).
  { induction ds as [|c ds IH]; intros acc Hacc Hds; cbn [fold_left]; [exact Hacc|].
    inversion Hds as [|? ? Hc Hds']; subst. apply is_digit_spec in Hc.
    apply IH; [lia|exact Hds']. }
  apply H. lia.
Qed.

Lemma StrUnsignedDecimalLiteral_is_Number neg s :
  is_Number (StrUnsignedDecimalLiteral neg s) = true.
Proof.
  unfold StrUnsignedDecimalLiteral.
  destruct (starts_with _ s); [reflexivity|].
  pose proof (span_digits_digits s) as Hip.
  destruct (span_digits s) as [ip r1]. cbn [fst] in Hip.
  assert (Hfp : Forall (fun c => is_digit c = true)
                  (match r1 with 46 :: t => span_digits t | _ => ([], r1) end).1).
  { destruct r1 as [|d t]; [constructor|].
    destruct (Z.eq_dec d 46) as [->|Hd]; [apply span_digits_digits|].
    destruct d as [|p|p]; try constructor.
    do 6 (destruct p as [p|p|]; try constructor). congruence. }
  destruct (match r1 with 46 :: t => span_digits t | _ => ([], r1) end) as [fp r2].
  cbn [fst] in Hfp.
  destruct (ip ++ fp) as [|c ds] eqn:E; [reflexivity|].
  apply round_decimal_is_Number, digits_value_nonneg.
  rewrite <- E. apply Forall_app. now split.
Qed.

(** [parseFloat] only returns Number values. *)
Lemma parseFloat_is_Number s : is_Number (parseFloat s) = true.
Proof.
  unfold parseFloat.
  destruct (trim_start s) as [|c r]; [reflexivity|].
  destruct (Z.eq_dec c 43) as [->|H43]; [apply StrUnsignedDecimalLiteral_is_Number|].
  destruct (Z.eq_dec c 45) as [->|H45]; [apply StrUnsignedDecimalLiteral_is_Number|].
  destruct c as [|p|p]; try apply StrUnsignedDecimalLiteral_is_Number.
  do 6 (destruct p as [p|p|]; try apply StrUnsignedDecimalLiteral_is_Number);
    congruence.
Qed.

(** ** The first token of a text *)

Lemma scan_scalar_first m s toks :
  scanning_scalar m -> JSON.scan m s = Some toks ->
  exists t ts, toks = t :: ts /\ is_Some (JSON.scalar t).
Proof.
  revert m toks. induction s as [|c r IH]; intros m toks Hm; cbn [JSON.scan].
  - destruct m as [|rest t|acc|acc|acc|acc hex]; try discriminate;
      [destruct Hm|].
    destruct (JSON.number_value (rev acc)); cbn; [|discriminate].
    intros [= <-]. do 2 eexists. split; [reflexivity|]. now eexists.
  - assert (Hgo : forall m', scanning_scalar m' ->
              option_map (app []) (JSON.scan m' r) = Some toks ->
              exists t ts, toks = t :: ts /\ is_Some (JSON.scalar t)).
    { intros m' Hm'. destruct (JSON.scan m' r) as [ts|] eqn:E; cbn; [|discriminate].
      intros [= <-]. eapply IH; eauto. }
    assert (Hout : forall t ts' m',
              is_Some (JSON.scalar t) ->
              option_map (app (t :: ts')) (JSON.scan m' r) = Some toks ->
              exists t ts, toks = t :: ts /\ is_Some (JSON.scalar t)).
    { intros t ts' m' Ht. destruct (JSON.scan m' r); cbn; [|discriminate].
      intros [= <-]. eauto. }
    destruct m as [|rest t|acc|acc|acc|acc hex]; cbn [JSON.step scanning_scalar] in *.
    + destruct Hm.
    + destruct rest as [|x rest]; [discriminate|].
      destruct (c =? x); [|discriminate].
      destruct rest; [apply (Hout t [] _ Hm)|now apply Hgo].
    + destruct (JSON.is_number_char c); [now apply Hgo|].
      destruct (JSON.number_value (rev acc)) as [n|]; [|discriminate].
      destruct (JSON.step_default c) as [[ts m']|]; [|discriminate].
      apply Hout. now eexists.
    + destruct (c =? 34); [apply Hout; now eexists|].
      destruct (c =? 92); [now apply Hgo|].
      destruct (c <? 32); [discriminate|now apply Hgo].
    + repeat match goal with
             | |- context [if ?b then _ else _] =>
                 destruct b; [now apply Hgo|]
             end.
      discriminate.
    + destruct (JSON.hex_digit c); [|discriminate].
      destruct hex as [|h1 [|h2 [|h3 [|]]]]; now apply Hgo.
Qed.

Lemma run_scalar_first t ts v :
  is_Some (JSON.scalar t) ->
  JSON.run (t :: ts) [] JSON.EValue = Some v -> is_composite v = false.
Proof.
  intros [w Hw]. cbn [JSON.run JSON.accept JSON.start_value].
  destruct t; try discriminate; cbn in Hw |- *;
    destruct ts; cbn; try discriminate; intros [= <-]; reflexivity.
Qed.

(** A text that [JSON.parse] reads as an object or an array has no
    numeric reading. *)
Lemma scan_composite_not_numeric s toks v :
  JSON.scan JSON.MDefault s = Some toks ->
  JSON.run toks [] JSON.EValue = Some v -> is_composite v = true ->
  parseFloat s = NaN.
Proof.
  revert toks. induction s as [|c r IH]; intros toks; cbn [JSON.scan].
  - intros [= <-]. discriminate.
  - cbn [JSON.step]. destruct (JSON.step_default c) as [[ts m]|] eqn:Hc;
      [|discriminate].
    destruct (JSON.scan m r) as [ts'|] eqn:Hs; cbn; [|discriminate].
    intros [= <-] Hrun Hv.
    assert (Hscalar : scanning_scalar m -> ts = [] -> False).
    { intros Hm ->. cbn [app] in Hrun.
      destruct (scan_scalar_first _ _ _ Hm Hs) as (t & ts & -> & Ht).
      apply (run_scalar_first _ _ _ Ht) in Hrun. congruence. }
    unfold JSON.step_default in Hc.
    destruct ((c =? 9) || (c =? 10) || (c =? 13) || (c =? 32)) eqn:Hw.
    + injection Hc as <- <-. cbn [app] in Hrun.
      unfold parseFloat. cbn [trim_start].
      assert (Hsp : is_StrWhiteSpaceChar c = true)
        by (unfold is_StrWhiteSpaceChar; lia).
      rewrite Hsp. exact (IH ts' Hs Hrun Hv).
    + destruct (Z.eqb_spec c 123) as [->|?]; [reflexivity|].
      destruct (Z.eqb_spec c 125) as [->|?];
        [injection Hc as <- <-; discriminate|].
      destruct (Z.eqb_spec c 91) as [->|?]; [reflexivity|].
      destruct (Z.eqb_spec c 93) as [->|?];
        [injection Hc as <- <-; discriminate|].
      destruct (Z.eqb_spec c 58) as [->|?];
        [injection Hc as <- <-; discriminate|].
      destruct (Z.eqb_spec c 44) as [->|?];
        [injection Hc as <- <-; discriminate|].
      exfalso.
      repeat match type of Hc with
             | (if ?a =? ?b then _ else _) = _ =>
                 destruct (Z.eqb_spec a b) as [->|?];
                 [injection Hc as <- <-; apply Hscalar; cbn; eauto|]
             end.
      destruct (is_digit c || (c =? 45)); [|discriminate].
      injection Hc as <- <-. now apply Hscalar.
Qed.

Lemma parse_composite_not_numeric s v :
  JSON.parse s = Some v -> is_composite v = true -> parseFloat s = NaN.
Proof.
  unfold JSON.parse. destruct (JSON.scan JSON.MDefault s) as [toks|] eqn:E;
    [|discriminate].
  intros Hrun Hv. exact (scan_composite_not_numeric s toks v E Hrun Hv).
Qed.

Lemma parse_scalar_head c r m v :
  JSON.step_default c = Some ([], m) -> scanning_scalar m ->
  JSON.parse (c :: r) = Some v -> is_composite v = false.
Proof.
  intros Hc Hm. unfold JSON.parse. cbn [JSON.scan JSON.step]. rewrite Hc.
  destruct (JSON.scan m r) as [toks|] eqn:E; cbn [option_map app]; [|discriminate].
  destruct (scan_scalar_first _ _ _ Hm E) as (t & ts & -> & Ht).
  apply run_scalar_first, Ht.
Qed.

Lemma parse_quoted r v :
  JSON.parse (34 :: r) = Some v -> is_composite v = false.
Proof. now apply (parse_scalar_head 34 r (JSON.MString [])). Qed.

(** ** More on the coercion routine *)

(** X2: [parseString] answers with an object or an array only for a text
    that [JSON.parse] reads as that very value. *)
Theorem parseString_composite_inv s :
  is_composite (parseString s) = true -> JSON.parse s = Some (parseString s).
Proof.
  unfold parseString.
  destruct (parseString_try s) as [v|] eqn:Ht.
  - intros _. now apply parseString_try_composite in Ht.
  - destruct (negb _); [discriminate|]. destruct (_ || _); discriminate.
Qed.

Lemma parseString_composite_inv_witness :
  JSON.parse (str "[]") = Some (parseString (str "[]")).
Proof. apply parseString_composite_inv. vm_compute. reflexivity. Defined.

(** X3: [parseString] answers with a boolean exactly for the two texts
    ["true"] and ["false"], spelled so. *)
Theorem parseString_boolean_exact s b :
  parseString s = VBoolean b <-> s = (if b then str "true" else str "false").
Proof.
  split.
  - unfold parseString.
    destruct (parseString_try s) as [v|] eqn:Ht.
    + apply parseString_try_composite in Ht as [_ Hv]. intros ->. discriminate.
    + destruct (negb _); [discriminate|].
      destruct (bool_decide_reflect (s = str "true")) as [->|H1]; cbn [orb].
      * intros [= <-]. reflexivity.
      * destruct (bool_decide_reflect (s = str "false")) as [->|H2];
          [|discriminate].
        intros [= <-]. reflexivity.
  - intros ->. destruct b; vm_compute; reflexivity.
Qed.

Lemma parseString_boolean_exact_witness :
  parseString (str "true") = VBoolean true
  /\ str "false" = (if false then str "true" else str "false").
Proof.
  split.
  - apply (proj2 (parseString_boolean_exact (str "true") true)). reflexivity.
  - apply (proj1 (parseString_boolean_exact (str "false") false)).
    vm_compute. reflexivity.
Defined.

Lemma StrUnsignedDecimalLiteral_digit_head neg c r :
  is_digit c = true -> isNaN (StrUnsignedDecimalLiteral neg (c :: r)) = false.
Proof.
  intros Hc. unfold StrUnsignedDecimalLiteral.
  rewrite starts_with_Infinity_digit by exact Hc.
  cbn [span_digits]. rewrite Hc.
  destruct (span_digits r) as [ds t].
  destruct (match t with 46 :: t' => span_digits t' | _ => ([], t) end) as [fp r2].
  cbn [app]. apply round_decimal_not_NaN.
Qed.

(** X4: a text that starts with a decimal digit is coerced to a number,
    the one [parseFloat] reads at its start, whatever follows the digits. *)
Theorem parseString_digit_head c r :
  is_digit c = true ->
  parseString (c :: r) = VNumber (parseFloat (c :: r))
  /\ isNaN (parseFloat (c :: r)) = false.
Proof.
  intros Hc.
  assert (Hn : isNaN (parseFloat (c :: r)) = false).
  { rewrite parseFloat_digit_head by exact Hc.
    now apply StrUnsignedDecimalLiteral_digit_head. }
  split; [|exact Hn].
  unfold parseString.
  rewrite parseString_try_number_head by now left.
  now rewrite Hn.
Qed.

Lemma parseString_digit_head_witness :
  parseString (str "12 Main Street") = VNumber (parseFloat (str "12 Main Street"))
  /\ isNaN (parseFloat (str "12 Main Street")) = false.
Proof. apply (parseString_digit_head 49). reflexivity. Defined.

(** X5: a text that starts with a double quote stays the text it is: a
    JSON string literal is not unquoted. *)
Theorem parseString_quoted r : parseString (34 :: r) = VString (34 :: r).
Proof.
  rewrite parseString_later_stages.
  - reflexivity.
  - apply parseString_try_scalar. intros v. apply parse_quoted.
Qed.

(** X6: the structured stage and the later stages never compete: a text
    that [JSON.parse] reads as an object or an array has no numeric
    reading and is neither ["true"] nor ["false"], so without the first
    stage it would have stayed the text it is. *)
Theorem parseString_stages_disjoint s v :
  JSON.parse s = Some v -> is_composite v = true ->
  isNaN (parseFloat s) = true /\ later_stages s = VString s.
Proof.
  intros Hp Hv.
  pose proof (parse_composite_not_numeric s v Hp Hv) as Hn.
  split; [now rewrite Hn|].
  unfold later_stages. rewrite Hn. cbn [isNaN negb].
  destruct (bool_decide_reflect (s = str "true")) as [->|_].
  { vm_compute in Hp. injection Hp as <-. discriminate. }
  destruct (bool_decide_reflect (s = str "false")) as [->|_]; [|reflexivity].
  vm_compute in Hp. injection Hp as <-. discriminate.
Qed.

Lemma parseString_stages_disjoint_witness :
  isNaN (parseFloat (str " [1]")) = true
  /\ later_stages (str " [1]") = VString (str " [1]").
Proof.
  apply (parseString_stages_disjoint (str " [1]") (VArray [VNumber one]));
    vm_compute; reflexivity.
Defined.

(** X7: writing back what was read changes nothing.  When the coercion of a
    text is not an object or an array, printing it with [String] and
    coercing again gives the same value, up to the sign of a zero. *)
Theorem parseString_String_stable s :
  is_composite (parseString s) = false ->
  result_map parseString (String (parseString s))
  = Return (unsigned_zero (parseString s)).
Proof.
  unfold parseString at 1 3 4.
  destruct (parseString_try s) as [v|] eqn:Ht.
  { apply parseString_try_composite in Ht as [_ Hv]. congruence. }
  intros _.
  destruct (isNaN (parseFloat s)) eqn:Hn; cbn [negb].
  - destruct (bool_decide_reflect (s = str "true")) as [->|H1]; cbn [orb];
      [vm_compute; reflexivity|].
    destruct (bool_decide_reflect (s = str "false")) as [->|H2];
      [vm_compute; reflexivity|].
    cbn [String unsigned_zero result_map]. f_equal.
    rewrite (parseString_later_stages s Ht).
    unfold later_stages. rewrite Hn. cbn [negb].
    now rewrite !bool_decide_eq_false_2 by assumption.
  - cbn [String result_map]. f_equal. unfold parseString.
    rewrite parseString_try_Number_toString,
      parseFloat_Number_toString by apply parseFloat_is_Number.
    destruct (parseFloat s); try discriminate; reflexivity.
Qed.

Lemma parseString_String_stable_witness :
  result_map parseString (String (parseString (str "-0")))
  = Return (unsigned_zero (parseString (str "-0"))).
Proof. apply parseString_String_stable. vm_compute. reflexivity. Defined.

(** ** The storage hook: the callbacks *)

Lemma getter_Return config st c :
  raw st = Some c ->
  nullish_coalesce (storage st !! name config) (str "") = c ->
  getter config st = Return (parseString c).
Proof.
  intros Hr Hs. unfold getter, localStorage.getItem. rewrite Hs, Hr.
  cbn [Object_is]. now rewrite bool_decide_eq_true_2.
Qed.

Lemma getter_Throw config st c :
  raw st = Some c ->
  nullish_coalesce (storage st !! name config) (str "") <> c ->
  getter config st = Throw inconsistency.
Proof.
  intros Hr Hs. unfold getter, localStorage.getItem. rewrite Hr.
  cbn [Object_is]. rewrite bool_decide_eq_false_2; [reflexivity|congruence].
Qed.

Lemma getter_Return_inv config st v :
  getter config st = Return v ->
  exists r, raw st = Some r /\ v = parseString r.
Proof.
  unfold getter. destruct (raw st) as [r|]; cbn [Object_is negb]; [|discriminate].
  destruct (bool_decide_reflect
              (r = nullish_coalesce (localStorage.getItem (name config) (storage st))
                                    (str ""))) as [<-|]; cbn [negb]; [|discriminate].
  intros [= <-]. eauto.
Qed.

(** The callback alone: with cached text [c] and persisted text [p] it
    throws if they differ and returns the coercion of [c] if not. *)
Lemma getter_consistency config st c p :
  raw st = Some c -> storage st !! name config = Some p ->
  (p <> c -> getter config st = Throw inconsistency)
  /\ (p = c -> getter config st = Return (parseString c)).
Proof.
  intros Hr Hs. split; intros H.
  - apply (getter_Throw config st c Hr). now rewrite Hs.
  - apply (getter_Return config st c Hr). now rewrite Hs.
Qed.

Lemma setter_Return config st v s :
  String v = Return s -> setter config v st = Return (written config s st).
Proof. intros H. unfold setter. now rewrite H. Qed.

Lemma setter_Throw config st v m :
  String v = Throw m -> setter config v st = Throw m.
Proof. intros H. unfold setter. now rewrite H. Qed.

Lemma setter_Return_inv config st v st1 :
  setter config v st = Return st1 ->
  exists s, String v = Return s /\ st1 = written config s st.
Proof.
  unfold setter. destruct (String v) as [s|m]; [|discriminate].
  intros [= <-]. eauto.
Qed.

Lemma getter_written config s st :
  getter config (written config s st) = Return (parseString s).
Proof.
  apply getter_Return; [reflexivity|].
  cbn [written storage]. now rewrite lookup_insert_eq.
Qed.

Lemma String_own_toString props :
  String (VObject props)
  = if has_own_property props (str "toString") then Throw not_primitive
    else Return (str "[object Object]").
Proof. reflexivity. Qed.

(** The effect, by the text it leaves: it writes and caches that text, or
    throws what [String] throws. *)
Lemma initialize_initial_text config st :
  initialize config st
  = result_map (fun text => written config text st) (initial_text config st).
Proof.
  unfold initialize, initial_text, localStorage.getItem, localStorage.setItem.
  destruct (storage st !! name config) as [[|c p]|] eqn:E;
    cbn [truthy nullish_coalesce result_map].
  - now destruct (String _).
  - unfold written. now rewrite (insert_id _ _ _ E).
  - now destruct (String _).
Qed.

Lemma initialize_Return_inv config st st1 :
  initialize config st = Return st1 ->
  exists r, initial_text config st = Return r /\ st1 = written config r st.
Proof.
  rewrite initialize_initial_text.
  destruct (initial_text config st) as [r|m]; [|discriminate].
  intros [= <-]. eauto.
Qed.

(** The memo is coherent in every state the hook reaches: it is on
    mounting, the effect and the setter do not touch it, and a render
    keeps it so ([useMemo_cache_coherent]). *)
Lemma cache_coherent_kept config st v :
  (forall ls, cache_coherent (mount ls))
  /\ (forall st1, cache_coherent st -> initialize config st = Return st1 ->
                  cache_coherent st1)
  /\ (forall st1, cache_coherent st -> setter config v st = Return st1 ->
                  cache_coherent st1).
Proof.
  split; [intros ls; exact I|]. split; intros st1 Hc H.
  - apply initialize_Return_inv in H as (r & _ & ->). exact Hc.
  - apply setter_Return_inv in H as (s & _ & ->). exact Hc.
Qed.

(** ** The storage hook: renders *)

Lemma useMemo_kept config st :
  useMemo config st
  = match kept_value config st with
    | Some v => Return (v, st)
    | None => result_map (fun v => (v, remember config v st)) (getter config st)
    end.
Proof.
  unfold useMemo, kept_value, remember, result_map.
  destruct (cache st) as [c|]; [|reflexivity].
  now destruct (_ && _).
Qed.

Lemma useMemo_consistent config st c p :
  raw st = Some c -> storage st !! name config = Some p ->
  match kept_value config st with
  | Some v => useMemo config st = Return (v, st)
  | None =>
      (p <> c -> useMemo config st = Throw inconsistency)
      /\ (p = c -> useMemo config st
                   = Return (parseString c, remember config (parseString c) st))
  end.
Proof.
  intros Hr Hs. rewrite useMemo_kept.
  destruct (kept_value config st) as [v|]; [reflexivity|].
  destruct (getter_consistency config st c p Hr Hs) as [H1 H2].
  split; intros H; [rewrite (H1 H)|rewrite (H2 H)]; reflexivity.
Qed.

Lemma useMemo_Return_cache config st v st' :
  useMemo config st = Return (v, st') ->
  storage st' = storage st /\ raw st' = raw st
  /\ exists c, cache st' = Some c /\ memo_raw c = raw st
               /\ memo_name c = name config /\ memo_value c = v.
Proof.
  rewrite useMemo_kept. unfold kept_value.
  destruct (cache st) as [c|] eqn:Ec.
  - destruct (bool_decide_reflect (memo_raw c = raw st)) as [E1|]; cbn [andb].
    + destruct (bool_decide_reflect (memo_name c = name config)) as [E2|].
      * intros [= <- <-]. eauto 10.
      * destruct (getter config st); [|discriminate].
        intros [= <- <-]. cbn. eauto 10.
    + destruct (getter config st); [|discriminate].
      intros [= <- <-]. cbn. eauto 10.
  - destruct (getter config st); [|discriminate].
    intros [= <- <-]. cbn. eauto 10.
Qed.

(** The render after a text was written and cached: the coercion of the
    text, whether the getter is recomputed or the kept value is reused. *)
Lemma useMemo_written config st s :
  cache_coherent st ->
  useMemo config (written config s st)
  = Return (parseString s,
            remember config (parseString s) (written config s st)).
Proof.
  intros Hc. rewrite useMemo_kept, getter_written.
  unfold kept_value, cache_coherent in *. cbn [written cache raw].
  destruct (cache st) as [c|] eqn:Ec; [|reflexivity].
  destruct (bool_decide_reflect (memo_raw c = Some s)) as [E1|]; cbn [andb];
    [|reflexivity].
  destruct (bool_decide_reflect (memo_name c = name config)) as [E2|];
    [|reflexivity].
  destruct Hc as (r & Hr & Hv). rewrite Hr in E1. injection E1 as ->.
  rewrite Hv. do 2 f_equal. unfold remember, written. cbn [storage raw cache].
  rewrite Ec. do 2 f_equal. destruct c; cbn in *; congruence.
Qed.







(** C9, amended: whenever [String v] returns a text the setter stores
    exactly that text under the key and caches it, and whenever [String v]
    throws the setter throws the same and stores nothing.  An object
    without an own [toString] property is stored as ["[object Object]"],
    and the render that follows returns this text, which is not the object
    that was written; an object with an own [toString] property makes the
    setter throw a TypeError. *)
Theorem setter_persists_String config st :
  (forall v s, String v = Return s ->
               setter config v st = Return (written config s st))
  /\ (forall v m, String v = Throw m -> setter config v st = Throw m)
  /\ (forall props,
        has_own_property props (str "toString") = false ->
        setter config (VObject props) st
        = Return (written config (str "[object Object]") st)
        /\ (cache_coherent st ->
            useMemo config (written config (str "[object Object]") st)
            = Return (VString (str "[object Object]"),
                      remember config (VString (str "[object Object]"))
                        (written config (str "[object Object]") st)))
        /\ VString (str "[object Object]") <> VObject props)
  /\ (forall props,
        has_own_property props (str "toString") = true ->
        setter config (VObject props) st = Throw not_primitive).
Proof.
  split; [|split; [|split]].
  - intros v s. apply setter_Return.
  - intros v m. apply setter_Throw.
  - intros props Hp. split; [|split].
    + apply setter_Return. now rewrite String_own_toString, Hp.
    + intros Hc. now rewrite useMemo_written.
    + discriminate.
  - intros props Hp. apply setter_Throw. now rewrite String_own_toString, Hp.
Qed.

Lemma setter_persists_String_witness :
  setter {| name := str "k"; defaultValue := None |} (VNumber five) (mount ∅)
  = Return (written {| name := str "k"; defaultValue := None |} (str "5")
              (mount ∅))
  /\ setter {| name := str "k"; defaultValue := None |}
            (VArray [toString_one]) (mount ∅)
     = Throw not_primitive
  /\ setter {| name := str "k"; defaultValue := None |}
            (VObject [(str "a", VNumber one)]) (mount ∅)
     = Return (written {| name := str "k"; defaultValue := None |}
                 (str "[object Object]") (mount ∅))
  /\ useMemo {| name := str "k"; defaultValue := None |}
             (written {| name := str "k"; defaultValue := None |}
                (str "[object Object]") (mount ∅))
     = Return (VString (str "[object Object]"),
               remember {| name := str "k"; defaultValue := None |}
                 (VString (str "[object Object]"))
                 (written {| name := str "k"; defaultValue := None |}
                    (str "[object Object]") (mount ∅)))
  /\ setter {| name := str "k"; defaultValue := None |} toString_one (mount ∅)
     = Throw not_primitive.
Proof.
  pose proof (setter_persists_String
                {| name := str "k"; defaultValue := None |} (mount ∅))
    as (H1 & H2 & H3 & H4).
  split; [|split; [|split; [|split]]].
  - apply H1. vm_compute. reflexivity.
  - apply H2. vm_compute. reflexivity.
  - apply (H3 [(str "a", VNumber one)]). reflexivity.
  - apply (H3 [(str "a", VNumber one)]); [reflexivity|exact I].
  - apply H4. reflexivity.
Defined.

(** C9, as stated, fails: the object that [JSON.parse] returns for
    [{"toString":1}] is not stored as ["[object Object]"]; the setter
    throws a TypeError and stores nothing. *)
Lemma setter_object_own_toString :
  JSON.parse (str "{" ++ dquote ++ str "toString" ++ dquote ++ str ":1}")
  = Some toString_one
  /\ setter {| name := str "k"; defaultValue := None |} toString_one (mount ∅)
     = Throw not_primitive.
Proof. split; vm_compute; reflexivity. Qed.

(** C10: while the cached text is still the initial [undefined], the
    getter throws the inconsistency error whatever the backend holds; in
    particular the first render of the hook throws. *)
Theorem getter_before_initialize config ls c :
  getter config {| storage := ls; raw := None; cache := c |}
  = Throw inconsistency
  /\ useMemo config (mount ls) = Throw inconsistency.
Proof. split; reflexivity. Qed.

(** ** The storage hook: the effect *)

(** X10: a persisted text that is not empty is adopted as the cached
    text and nothing is written, whatever the default is. *)
Lemma initialize_present config st c p :
  storage st !! name config = Some (c :: p) ->
  initialize config st
  = Return {| storage := storage st; raw := Some (c :: p); cache := cache st |}.
Proof.
  intros Hs. unfold initialize, localStorage.getItem. rewrite Hs. reflexivity.
Qed.

Lemma initialize_present_witness :
  initialize {| name := str "k"; defaultValue := Some toString_null |}
             (mount {[ str "k" := str "7" ]})
  = Return {| storage := {[ str "k" := str "7" ]}; raw := Some (str "7");
              cache := None |}.
Proof.
  pose proof (initialize_present
                {| name := str "k"; defaultValue := Some toString_null |}
                (mount {[ str "k" := str "7" ]}) 55 []) as H.
  vm_compute in H. vm_compute. apply H. reflexivity.
Defined.

(** C4, the code at the failing input: when no text is persisted under the
    key and the configuration has no default, the effect stores the text
    ["undefined"], not the empty text, and adopts it as the cached text. *)
Theorem initialize_without_default config st :
  defaultValue config = None -> storage st !! name config = None ->
  initialize config st = Return (written config (str "undefined") st).
Proof.
  intros Hd Hs. unfold initialize, localStorage.getItem. rewrite Hd, Hs.
  reflexivity.
Qed.

Lemma initialize_without_default_witness :
  initialize {| name := str "k"; defaultValue := None |} (mount ∅)
  = Return {| storage := {[ str "k" := str "undefined" ]};
              raw := Some (str "undefined"); cache := None |}.
Proof.
  pose proof (initialize_without_default
                {| name := str "k"; defaultValue := None |} (mount ∅)) as H.
  vm_compute in H. vm_compute. apply H; reflexivity.
Defined.

(** C6, the code at the failing input: when the text persisted under the
    key is the empty text, the effect does not adopt it; it converts the
    default with [String], overwrites the empty text with the result and
    adopts that (and throws, adopting nothing, if [String] throws). *)
Theorem initialize_overwrites_empty config st :
  storage st !! name config = Some (str "") ->
  initialize config st
  = result_map (fun text => written config text st)
               (String (default VUndefined (defaultValue config))).
Proof.
  intros Hs. unfold initialize, localStorage.getItem. rewrite Hs.
  cbn [truthy]. now destruct (String _).
Qed.

Lemma initialize_overwrites_empty_witness :
  initialize {| name := str "k"; defaultValue := Some (VNumber five) |}
             (mount {[ str "k" := str "" ]})
  = Return {| storage := <[ str "k" := str "5" ]> {[ str "k" := str "" ]};
              raw := Some (str "5"); cache := None |}.
Proof.
  pose proof (initialize_overwrites_empty
                {| name := str "k"; defaultValue := Some (VNumber five) |}
                (mount {[ str "k" := str "" ]})) as H.
  vm_compute in H. vm_compute. apply H. reflexivity.
Defined.

(** X8: when the effect returns, the read that follows does not throw.
    The text the effect left is the persisted one if there was one that is
    not empty and the text of the default otherwise; the getter returns
    its coercion, and so does the next render of a hook whose memo is
    coherent. *)
Theorem initialize_then_getter config st st1 :
  initialize config st = Return st1 ->
  exists r, initial_text config st = Return r
            /\ getter config st1 = Return (parseString r)
            /\ (cache_coherent st ->
                useMemo config st1
                = Return (parseString r, remember config (parseString r) st1)).
Proof.
  intros H. apply initialize_Return_inv in H as (r & Hr & ->).
  exists r. split; [exact Hr|]. split; [apply getter_written|].
  apply useMemo_written.
Qed.

Lemma initialize_then_getter_witness :
  exists r,
    initial_text {| name := str "k"; defaultValue := Some (VNumber five) |}
                 (mount ∅) = Return r
    /\ getter {| name := str "k"; defaultValue := Some (VNumber five) |}
              (written {| name := str "k"; defaultValue := Some (VNumber five) |}
                 (str "5") (mount ∅))
       = Return (parseString r)
    /\ (cache_coherent (mount ∅) ->
        useMemo {| name := str "k"; defaultValue := Some (VNumber five) |}
                (written {| name := str "k"; defaultValue := Some (VNumber five) |}
                   (str "5") (mount ∅))
        = Return (parseString r,
                  remember {| name := str "k";
                              defaultValue := Some (VNumber five) |}
                    (parseString r)
                    (written {| name := str "k";
                                defaultValue := Some (VNumber five) |}
                       (str "5") (mount ∅)))).
Proof.
  apply (initialize_then_getter
           {| name := str "k"; defaultValue := Some (VNumber five) |} (mount ∅)).
  vm_compute. reflexivity.
Defined.

(** X9: running the effect a second time changes nothing: on the state
    its first run returned, the effect returns that same state. *)
Theorem initialize_idempotent config st st1 :
  initialize config st = Return st1 -> initialize config st1 = Return st1.
Proof.
  intros H. apply initialize_Return_inv in H as (r & Hr & ->).
  rewrite initialize_initial_text.
  assert (Hi : initial_text config (written config r st) = Return r).
  { unfold initial_text in *. cbn [written storage].
    rewrite lookup_insert_eq. destruct r as [|c p]; [|reflexivity].
    now destruct (storage st !! name config) as [[|c p]|]. }
  rewrite Hi. cbn [result_map]. unfold written. cbn [storage raw cache].
  now rewrite insert_insert_eq.
Qed.

Lemma initialize_idempotent_witness :
  initialize {| name := str "k"; defaultValue := Some (VString (str "")) |}
             {| storage := {[ str "k" := str "" ]}; raw := Some (str "");
                cache := None |}
  = Return {| storage := {[ str "k" := str "" ]}; raw := Some (str "");
              cache := None |}.
Proof.
  pose proof (initialize_idempotent
                {| name := str "k"; defaultValue := Some (VString (str "")) |}
                (mount ∅)
                {| storage := {[ str "k" := str "" ]}; raw := Some (str "");
                   cache := None |}) as H.
  apply H. vm_compute. reflexivity.
Defined.

(** X11: neither the effect nor the setter touches another key. *)
Theorem initialize_setter_frame config st v k :
  k <> name config ->
  (forall st1, initialize config st = Return st1 ->
               storage st1 !! k = storage st !! k)
  /\ (forall st1, setter config v st = Return st1 ->
                  storage st1 !! k = storage st !! k).
Proof.
  intros Hk. split; intros st1 H.
  - apply initialize_Return_inv in H as (r & _ & ->).
    cbn [written storage]. now rewrite lookup_insert_ne.
  - apply setter_Return_inv in H as (s & _ & ->).
    cbn [written storage]. now rewrite lookup_insert_ne.
Qed.

Lemma initialize_setter_frame_witness :
  storage (written {| name := str "k"; defaultValue := None |} (str "undefined")
             (mount {[ str "j" := str "1" ]})) !! str "j"
  = Some (str "1")
  /\ storage (written {| name := str "k"; defaultValue := None |} (str "null")
                (mount {[ str "j" := str "1" ]})) !! str "j"
     = Some (str "1").
Proof.
  pose proof (initialize_setter_frame
                {| name := str "k"; defaultValue := None |}
                (mount {[ str "j" := str "1" ]}) VNull (str "j")) as H.
  destruct H as [H1 H2]; [discriminate|].
  split.
  - exact (H1 (written {| name := str "k"; defaultValue := None |}
                 (str "undefined") (mount {[ str "j" := str "1" ]})) eq_refl).
  - exact (H2 (written {| name := str "k"; defaultValue := None |}
                 (str "null") (mount {[ str "j" := str "1" ]})) eq_refl).
Defined.

(** X12: of two writes in a row only the second one is left: once a first
    call of the setter has returned, a second call does what it would have
    done without the first. *)
Theorem setter_setter config st v w st1 :
  setter config v st = Return st1 ->
  setter config w st1 = setter config w st.
Proof.
  intros H. apply setter_Return_inv in H as (s & _ & ->).
  unfold setter. destruct (String w) as [t|m]; [|reflexivity].
  unfold written, localStorage.setItem. cbn [storage cache].
  now rewrite insert_insert_eq.
Qed.

Lemma setter_setter_witness :
  setter {| name := str "k"; defaultValue := None |} toString_null
         (written {| name := str "k"; defaultValue := None |} (str "1") (mount ∅))
  = setter {| name := str "k"; defaultValue := None |} toString_null (mount ∅)
  /\ setter {| name := str "k"; defaultValue := None |} (VString (str "x"))
            (written {| name := str "k"; defaultValue := None |} (str "1")
               (mount ∅))
     = setter {| name := str "k"; defaultValue := None |} (VString (str "x"))
              (mount ∅).
Proof.
  split;
    apply (setter_setter {| name := str "k"; defaultValue := None |} (mount ∅)
             (VNumber one));
    vm_compute; reflexivity.
Defined.

(** X13: the cached text equal to the persisted one is an invariant of
    the hook.  The effect and the setter establish it whenever they
    return, a render that returns keeps the state it holds in, and while it
    holds the getter returns the coercion of that text. *)
Theorem in_sync_invariant config st v :
  (forall st1, initialize config st = Return st1 -> in_sync config st1)
  /\ (forall st1, setter config v st = Return st1 -> in_sync config st1)
  /\ (forall w st', in_sync config st -> useMemo config st = Return (w, st') ->
                    in_sync config st')
  /\ (in_sync config st ->
      exists r, raw st = Some r /\ getter config st = Return (parseString r)).
Proof.
  assert (Hw : forall r, in_sync config (written config r st)).
  { intros r. exists r. split; [reflexivity|].
    cbn [written storage]. apply lookup_insert_eq. }
  split; [|split; [|split]].
  - intros st1 H. apply initialize_Return_inv in H as (r & _ & ->). apply Hw.
  - intros st1 H. apply setter_Return_inv in H as (s & _ & ->). apply Hw.
  - intros w st' (r & Hr & Hs) H.
    apply useMemo_Return_cache in H as (Es & Er & _).
    exists r. now rewrite Er, Es.
  - intros (r & Hr & Hs). exists r. split; [exact Hr|].
    apply getter_Return; [exact Hr|]. now rewrite Hs.
Qed.

Lemma in_sync_invariant_witness :
  in_sync {| name := str "k"; defaultValue := None |}
          (written {| name := str "k"; defaultValue := None |} (str "undefined")
             (mount ∅))
  /\ in_sync {| name := str "k"; defaultValue := None |}
             (written {| name := str "k"; defaultValue := None |} (str "null")
                (mount ∅))
  /\ exists r,
       raw (written {| name := str "k"; defaultValue := None |} (str "null")
              (mount ∅)) = Some r
       /\ getter {| name := str "k"; defaultValue := None |}
                 (written {| name := str "k"; defaultValue := None |} (str "null")
                    (mount ∅))
          = Return (parseString r).
Proof.
  pose proof (in_sync_invariant {| name := str "k"; defaultValue := None |}
                (mount ∅) VNull) as (H1 & H2 & _ & _).
  split;
    [exact (H1 (written {| name := str "k"; defaultValue := None |}
                  (str "undefined") (mount ∅)) eq_refl)|].
  split;
    [exact (H2 (written {| name := str "k"; defaultValue := None |}
                  (str "null") (mount ∅)) eq_refl)|].
  apply (proj2 (proj2 (proj2
           (in_sync_invariant {| name := str "k"; defaultValue := None |}
              (written {| name := str "k"; defaultValue := None |} (str "null")
                 (mount ∅))
              VNull)))).
  exact (H2 (written {| name := str "k"; defaultValue := None |}
               (str "null") (mount ∅)) eq_refl).
Defined.

(** X14: two hooks on one key.  After the setter of another hook has
    written [v] under the key, a render of a hook whose cached text is [c]
    reuses the value it kept for [c] and the key when it has one; when it
    has none it throws the inconsistency error, unless the text of [v] is
    exactly [c]. *)
Theorem useMemo_after_foreign_setter config other st1 c k v :
  setter config v other = Return st1 ->
  match kept_value config {| storage := storage st1; raw := Some c; cache := k |}
  with
  | Some w =>
      useMemo config {| storage := storage st1; raw := Some c; cache := k |}
      = Return (w, {| storage := storage st1; raw := Some c; cache := k |})
  | None =>
      useMemo config {| storage := storage st1; raw := Some c; cache := k |}
      = if bool_decide (String v = Return c)
        then Return (parseString c,
                     remember config (parseString c)
                       {| storage := storage st1; raw := Some c; cache := k |})
        else Throw inconsistency
  end.
Proof.
  intros H. apply setter_Return_inv in H as (s & Hs & ->).
  pose proof (useMemo_consistent config
                {| storage := storage (written config s other);
                   raw := Some c; cache := k |} c s eq_refl) as Hm.
  cbn [storage written] in Hm |- *. rewrite lookup_insert_eq in Hm.
  specialize (Hm eq_refl).
  destruct (kept_value config _) as [w|]; [exact Hm|].
  destruct Hm as [H1 H2]. rewrite Hs.
  destruct (bool_decide_reflect (Return s = Return c)) as [E|E].
  - injection E as ->. now apply H2.
  - apply H1. congruence.
Qed.

Lemma useMemo_after_foreign_setter_witness :
  useMemo {| name := str "k"; defaultValue := None |}
          {| storage := {[ str "k" := str "2" ]}; raw := Some (str "1");
             cache := None |}
  = Throw inconsistency
  /\ useMemo {| name := str "k"; defaultValue := None |}
             {| storage := {[ str "k" := str "2" ]}; raw := Some (str "1");
                cache := Some {| memo_raw := Some (str "1"); memo_name := str "k";
                                 memo_value := VNumber one |} |}
     = Return (VNumber one,
               {| storage := {[ str "k" := str "2" ]}; raw := Some (str "1");
                  cache := Some {| memo_raw := Some (str "1"); memo_name := str "k";
                                   memo_value := VNumber one |} |}).
Proof.
  split.
  - pose proof (useMemo_after_foreign_setter
                  {| name := str "k"; defaultValue := None |} (mount ∅)
                  (written {| name := str "k"; defaultValue := None |} (str "2")
                     (mount ∅))
                  (str "1") None (VString (str "2")) eq_refl) as H.
    vm_compute in H. vm_compute. exact H.
  - pose proof (useMemo_after_foreign_setter
                  {| name := str "k"; defaultValue := None |} (mount ∅)
                  (written {| name := str "k"; defaultValue := None |} (str "2")
                     (mount ∅))
                  (str "1")
                  (Some {| memo_raw := Some (str "1"); memo_name := str "k";
                           memo_value := VNumber one |})
                  (VString (str "2")) eq_refl) as H.
    vm_compute in H. vm_compute. exact H.
Defined.

(** X15: when the key is missing from the backend, the getter reads the
    empty text for it: it returns the empty text if that is the cached
    text and throws otherwise. *)
Theorem getter_missing_key config st :
  storage st !! name config = None ->
  getter config st
  = if bool_decide (raw st = Some []) then Return (VString [])
    else Throw inconsistency.
Proof.
  intros Hs. unfold getter, localStorage.getItem. rewrite Hs.
  cbn [nullish_coalesce].
  destruct (raw st) as [[|c p]|]; reflexivity.
Qed.

Lemma getter_missing_key_witness :
  getter {| name := str "k"; defaultValue := None |}
         {| storage := ∅; raw := Some (str "1"); cache := None |}
  = Throw inconsistency.
Proof.
  apply (getter_missing_key {| name := str "k"; defaultValue := None |}
           {| storage := ∅; raw := Some (str "1"); cache := None |}).
  reflexivity.
Defined.

(** ** Memoisation *)

(** X16: a render that returns keeps the memo coherent, leaves the
    backend and [raw] as they are, and returns the coercion of [raw]. *)
Lemma useMemo_cache_coherent config st v st' :
  cache_coherent st -> useMemo config st = Return (v, st') ->
  cache_coherent st' /\ storage st' = storage st /\ raw st' = raw st
  /\ exists r, raw st = Some r /\ v = parseString r.
Proof.
  unfold useMemo, cache_coherent. intros Hc.
  assert (Hre : match getter config st with
                | Return v0 => Return (v0, {| storage := storage st; raw := raw st;
                     cache := Some {| memo_raw := raw st; memo_name := name config;
                                      memo_value := v0 |} |})
                | Throw message => Throw message
                end = Return (v, st') ->
    match cache st' with
    | Some c => exists r, memo_raw c = Some r /\ memo_value c = parseString r
    | None => True
    end /\ storage st' = storage st /\ raw st' = raw st
    /\ exists r, raw st = Some r /\ v = parseString r).
  { destruct (getter config st) as [w|] eqn:G; [|discriminate].
    intros [= <- <-]. apply getter_Return_inv in G as (r & Hr & ->).
    cbn. eauto 10. }
  destruct (cache st) as [c|] eqn:Ec; [|exact Hre].
  destruct (bool_decide_reflect (memo_raw c = raw st)) as [E|]; cbn [andb];
    [|exact Hre].
  destruct (bool_decide (memo_name c = name config)); [|exact Hre].
  intros [= <- <-]. destruct Hc as (r & Hr & Hv). rewrite Ec.
  split; [eauto|]. split; [reflexivity|]. split; [reflexivity|].
  exists r. split; congruence.
Qed.

Lemma useMemo_cache_coherent_witness :
  cache_coherent
    {| storage := {[ str "k" := str "1" ]}; raw := Some (str "1");
       cache := Some {| memo_raw := Some (str "1"); memo_name := str "k";
                        memo_value := VNumber one |} |}.
Proof.
  refine (proj1 (useMemo_cache_coherent
                   {| name := str "k"; defaultValue := None |}
                   {| storage := {[ str "k" := str "1" ]}; raw := Some (str "1");
                      cache := None |} (VNumber one) _ I _)).
  vm_compute. reflexivity.
Defined.

(** A render whose dependencies are unchanged reuses the kept value and
    does not look at the backend. *)
Lemma useMemo_reuses ls r c :
  memo_raw c = r ->
  useMemo {| name := memo_name c; defaultValue := None |}
          {| storage := ls; raw := r; cache := Some c |}
  = Return (memo_value c, {| storage := ls; raw := r; cache := Some c |}).
Proof.
  intros <-. unfold useMemo. cbn [cache raw name].
  now rewrite !bool_decide_eq_true_2.
Qed.

(** X18: what a render returned is returned again by the next render as
    long as [raw] and [name] are the same, whatever was done to the
    backend in between: a text changed from outside is not noticed. *)
Theorem useMemo_keeps_value config st v st' ls :
  useMemo config st = Return (v, st') ->
  useMemo config {| storage := ls; raw := raw st'; cache := cache st' |}
  = Return (v, {| storage := ls; raw := raw st'; cache := cache st' |}).
Proof.
  intros H. apply useMemo_Return_cache in H as (_ & Hr & c & Hc & H1 & H2 & <-).
  unfold useMemo. cbn [cache raw]. rewrite Hc.
  rewrite !bool_decide_eq_true_2 by congruence. reflexivity.
Qed.

Lemma useMemo_keeps_value_witness :
  useMemo {| name := str "k"; defaultValue := None |}
          {| storage := {[ str "k" := str "2" ]}; raw := Some (str "1");
             cache := Some {| memo_raw := Some (str "1"); memo_name := str "k";
                              memo_value := VNumber one |} |}
  = Return (VNumber one,
            {| storage := {[ str "k" := str "2" ]}; raw := Some (str "1");
               cache := Some {| memo_raw := Some (str "1"); memo_name := str "k";
                                memo_value := VNumber one |} |}).
Proof.
  apply (useMemo_keeps_value {| name := str "k"; defaultValue := None |}
           {| storage := {[ str "k" := str "1" ]}; raw := Some (str "1");
              cache := None |}
           (VNumber one)
           {| storage := {[ str "k" := str "1" ]}; raw := Some (str "1");
              cache := Some {| memo_raw := Some (str "1"); memo_name := str "k";
                               memo_value := VNumber one |} |}
           {[ str "k" := str "2" ]}).
  vm_compute. reflexivity.
Defined.

(** ** The storage context *)

(** C8: with no provider around it, [useStorageContext] returns the
    default of the context, the empty tuple, and throws nothing; under a
    provider it returns the pair the provider was given. *)
Theorem useStorageContext_unprovided :
  useStorageContext [] = []
  /\ forall g s providers,
       useStorageContext (StorageProvider g s providers) = [Getter g; Setter s].
Proof. split; reflexivity. Qed.

(** ** The primitives on examples *)

Example parseFloat_examples :
  parseFloat (str "  -0.5e-1x") = Finite true 7205759403792794 (-57)
  /\ parseFloat (str "0.1") = Finite false 7205759403792794 (-56)
  /\ parseFloat (str "-0") = Zero true
  /\ parseFloat (str ".") = NaN
  /\ parseFloat (str "1e") = one
  /\ parseFloat (str "0x10") = Zero false
  /\ parseFloat (str "-Infinityx") = Infinity true
  /\ parseFloat (str "5e-324") = Finite false 1 (-1074)
  /\ parseFloat (str "1.7976931348623159e308") = Infinity false.
Proof. vm_compute. repeat split. Qed.

Example Number_toString_examples :
  Number_toString (Finite false 7205759403792794 (-56)) = str "0.1"
  /\ Number_toString (Finite true (5 * 2 ^ 50) (-52)) = str "-1.25"
  /\ Number_toString (parseFloat (str "1e21")) = str "1e+21"
  /\ Number_toString (parseFloat (str "123456789012345678901"))
     = str "123456789012345680000"
  /\ Number_toString (parseFloat (str "0.000001")) = str "0.000001"
  /\ Number_toString (parseFloat (str "0.0000001")) = str "1e-7"
  /\ Number_toString (parseFloat (str "0.1e1")) = str "1"
  /\ Number_toString (Finite false 1 (-1074)) = str "5e-324"
  /\ Number_toString (Zero true) = str "0"
  /\ Number_toString five = str "5".
Proof. vm_compute. repeat split. Qed.

Example String_examples :
  String VUndefined = Return (str "undefined")
  /\ String (VArray [VNumber one; VNull; VArray [VBoolean true; VUndefined];
                     VObject []; VString (str "x")])
     = Return (str "1,,true,,[object Object],x")
  /\ String (VObject [(str "valueOf", VNull)]) = Return (str "[object Object]")
  /\ String toString_null = Throw not_primitive
  /\ String (VArray [VNumber one; toString_one]) = Throw not_primitive.
Proof. vm_compute. repeat split. Qed.

Example JSON_parse_examples :
  JSON.parse (str " [1, true, null, [], {}] ")
  = Some (VArray [VNumber one; VBoolean true; VNull; VArray []; VObject []])
  /\ JSON.parse (str "{" ++ dquote ++ str "a" ++ dquote ++ str ":1,"
                 ++ dquote ++ str "a" ++ dquote ++ str ":[-0]}")
     = Some (VObject [(str "a", VArray [VNumber (Zero true)])])
  /\ JSON.parse (dquote ++ str "A\n" ++ dquote) = Some (VString [65; 10])
  /\ JSON.parse (str "01") = None
  /\ JSON.parse (str "[1,]") = None
  /\ JSON.parse (str "") = None
  /\ JSON.parse (str "[object Object]") = None.
Proof. vm_compute. repeat split. Qed.

Example parseString_examples :
  parseString (str "null") = VString (str "null")
  /\ parseString (dquote ++ str "12" ++ dquote)
     = VString (dquote ++ str "12" ++ dquote)
  /\ parseString (str " 12") = VNumber (parseFloat (str "12"))
  /\ parseString (str "True") = VString (str "True")
  /\ parseString (str "false") = VBoolean false.
Proof. vm_compute. repeat split. Qed.
